(** * DataImporter: reconciliation of the operator / EVSE feed

    A shallow embedding of [src/services/DataImporter.ts] and the properties
    of its reconciliation core: sub-operator resolution from EVSE ids,
    extraction of the translation rows from the packed [EnAdditionalInfo]
    field, and the two-phase transactional import. *)

From Stdlib Require Import String Ascii.
From stdpp Require Import gmap list option.

Local Open Scope N_scope.

(** ** JavaScript strings

    A JavaScript string is a sequence of UTF-16 code units; the regular
    expressions of the importer have no [u] flag, so they work on code units
    as well. *)

Definition code_unit := N.
Definition jsstring := list code_unit.

(** A string literal of the source (ASCII only). *)
Definition js (s : string) : jsstring :=
  N_of_ascii <$> list_ascii_of_string s.

(** Character classes [A-Z], [A-Za-z], [0-9], [A-Za-z0-9]. *)
Definition is_upper (c : code_unit) : bool := (65 <=? c) && (c <=? 90).
Definition is_lower (c : code_unit) : bool := (97 <=? c) && (c <=? 122).
Definition is_alpha (c : code_unit) : bool := is_upper c || is_lower c.
Definition is_digit (c : code_unit) : bool := (48 <=? c) && (c <=? 57).
Definition is_alnum (c : code_unit) : bool := is_alpha c || is_digit c.

(** LineTerminator: the code units that [.] does not match. *)
Definition is_line_terminator (c : code_unit) : bool :=
  (c =? 10) || (c =? 13) || (c =? 8232) || (c =? 8233).

(** WhiteSpace and LineTerminator: what [String.prototype.trim] strips. *)
Definition is_white_space (c : code_unit) : bool :=
  (c =? 9) || (c =? 11) || (c =? 12) || (c =? 32) || (c =? 160)
  || (c =? 5760) || ((8192 <=? c) && (c <=? 8202))
  || (c =? 8239) || (c =? 8287) || (c =? 12288) || (c =? 65279)
  || is_line_terminator c.

Fixpoint trim_start (s : jsstring) : jsstring :=
  match s with
  | c :: s' => if is_white_space c then trim_start s' else s
  | [] => []
  end.

Definition trim (s : jsstring) : jsstring :=
  reverse (trim_start (reverse (trim_start s))).

(** Truthiness of an optional string: [undefined], [null] and [""] are
    falsy. *)
Definition truthy (v : option jsstring) : bool :=
  match v with
  | Some (_ :: _) => true
  | _ => false
  end.

(** ** Regular expressions

    A pattern is matched at the head of a string by a function that returns
    the rest of the string after the match; alternatives and quantifiers are
    tried in the order of a backtracking matcher. *)

(** One literal code unit. *)
Definition lit (c : code_unit) (s : jsstring) : option jsstring :=
  match s with
  | c' :: s' => if c =? c' then Some s' else None
  | [] => None
  end.

(** A literal string. *)
Fixpoint lits (l : jsstring) (s : jsstring) : option jsstring :=
  match l with
  | [] => Some s
  | c :: l' => lit c s ≫= lits l'
  end.

(** [[class]{n}]. *)
Fixpoint class_n (p : code_unit -> bool) (n : nat) (s : jsstring)
  : option jsstring :=
  match n with
  | O => Some s
  | S n' =>
      match s with
      | c :: s' => if p c then class_n p n' s' else None
      | [] => None
      end
  end.

(** [p1|p2], and [p?] followed by [k] (greedy: with [p] first). *)
Definition orelse {A} (x y : option A) : option A :=
  match x with
  | Some a => Some a
  | None => y
  end.

(** The text matched, given the subject at the start of the match and the
    rest after it. *)
Definition matched (s rest : jsstring) : jsstring :=
  take (length s - length rest)%nat s.

(** *** [OPERATOR_ID_REGEX]
    [/([A-Za-z]{2}\*?[A-Za-z0-9]{3})|(\+?[0-9]{1,3}\*[0-9]{3})/] *)

Definition STAR : code_unit := 42.
Definition PLUS : code_unit := 43.
Definition COLON : code_unit := 58.
Definition PIPE : code_unit := 124.

(** [([A-Za-z]{2}\*?[A-Za-z0-9]{3})] *)
Definition operator_id_alt1 (s : jsstring) : option jsstring :=
  s1 ← class_n is_alpha 2 s;
  orelse (lit STAR s1 ≫= class_n is_alnum 3) (class_n is_alnum 3 s1).

(** [[0-9]{1,3}\*[0-9]{3}]: three digits first, then two, then one. *)
Definition operator_id_digits (s : jsstring) : option jsstring :=
  let k (n : nat) : option jsstring :=
    (class_n is_digit n s ≫= lit STAR) ≫= class_n is_digit 3 in
  orelse (k 3%nat) (orelse (k 2%nat) (k 1%nat)).

(** [(\+?[0-9]{1,3}\*[0-9]{3})] *)
Definition operator_id_alt2 (s : jsstring) : option jsstring :=
  orelse (lit PLUS s ≫= operator_id_digits) (operator_id_digits s).

Definition operator_id_here (s : jsstring) : option jsstring :=
  orelse (operator_id_alt1 s) (operator_id_alt2 s).

(** [OPERATOR_ID_REGEX.exec(s)]: the leftmost match; [Some m] stands for the
    match array, of which only element [0] is modelled, [None] for [null]. *)
Fixpoint OPERATOR_ID_REGEX_exec (s : jsstring) : option jsstring :=
  match operator_id_here s with
  | Some rest => Some (matched s rest)
  | None =>
      match s with
      | _ :: s' => OPERATOR_ID_REGEX_exec s'
      | [] => None
      end
  end.

(** *** [LOCALIZED_INFO_REGEX]
    [new RegExp('([A-Z]{3}):(.*?)\\|\\|\\|', 'g')] *)

(** [\|\|\|] *)
Definition delimiter (s : jsstring) : option jsstring :=
  (lit PIPE s ≫= lit PIPE) ≫= lit PIPE.

(** [(.*?)\|\|\|]: the shortest run of non-terminators followed by the
    delimiter; the captured text and the rest after the delimiter. *)
Fixpoint lazy_dots_delimiter (s : jsstring) : option (jsstring * jsstring) :=
  match delimiter s with
  | Some rest => Some ([], rest)
  | None =>
      match s with
      | c :: s' =>
          if is_line_terminator c then None
          else '(cap, rest) ← lazy_dots_delimiter s'; Some (c :: cap, rest)
      | [] => None
      end
  end.

(** The array returned by a successful [exec]: the two capture groups and
    the index just after the match. *)
Record RegExpMatch := {
  group1 : jsstring;
  group2 : jsstring;
  match_end : nat
}.

Definition localized_info_here (s : jsstring)
  : option (jsstring * jsstring * jsstring) :=
  s1 ← class_n is_upper 3 s;
  s2 ← lit COLON s1;
  '(cap, rest) ← lazy_dots_delimiter s2;
  Some (take 3 s, cap, rest).

(** Search from index [pos], where [s] is the subject from [pos] on. *)
Fixpoint localized_info_search (s : jsstring) (pos : nat)
  : option RegExpMatch :=
  match localized_info_here s with
  | Some (g1, g2, rest) =>
      Some {| group1 := g1; group2 := g2;
              match_end := (pos + (length s - length rest))%nat |}
  | None =>
      match s with
      | _ :: s' => localized_info_search s' (S pos)
      | [] => None
      end
  end.

(** The mutable state of a RegExp object with the [g] flag. *)
Record RegExp := { lastIndex : nat }.

Definition new_RegExp : RegExp := {| lastIndex := 0 |}.

(** [LOCALIZED_INFO_REGEX.exec(s)]: the search starts at [lastIndex]; a
    match moves [lastIndex] to its end, a failure resets it to 0. *)
Definition LOCALIZED_INFO_REGEX_exec (re : RegExp) (s : jsstring)
  : option RegExpMatch * RegExp :=
  if decide (lastIndex re ≤ length s)%nat then
    match localized_info_search (drop (lastIndex re) s) (lastIndex re) with
    | Some m => (Some m, {| lastIndex := match_end m |})
    | None => (None, {| lastIndex := 0 |})
    end
  else (None, {| lastIndex := 0 |}).

(** *** The anchor regexes
    [new RegExp(ALPHA_3 + ':.*\\|\\|\\|')], without flags: [test] keeps no
    state. *)

(** [.*\|\|\|]: the longest run of non-terminators first, then shorter
    ones. *)
Fixpoint greedy_dots_delimiter (s : jsstring) : bool :=
  match s with
  | c :: s' =>
      (negb (is_line_terminator c) && greedy_dots_delimiter s')
      || bool_decide (is_Some (delimiter s))
  | [] => false
  end.

Definition anchor_here (alpha3 : jsstring) (s : jsstring) : bool :=
  match lits alpha3 s ≫= lit COLON with
  | Some rest => greedy_dots_delimiter rest
  | None => false
  end.

Fixpoint anchor_regex_test (alpha3 : jsstring) (s : jsstring) : bool :=
  anchor_here alpha3 s ||
  match s with
  | _ :: s' => anchor_regex_test alpha3 s'
  | [] => false
  end.

(** ** Data model *)

(** A value of the parsed feed whose interface the importer does not look
    into: it is only handed to the helper. *)
#[local] Unset Elimination Schemes.
Inductive JsValue :=
| JsUndefined
| JsNumber (z : Z)
| JsString (s : jsstring)
| JsArray (l : list JsValue)
| JsObject (fields : list (jsstring * JsValue)).
#[local] Set Elimination Schemes.

(** [v.k] for a value known to be an object or [undefined]-like. *)
Definition get_prop (k : jsstring) (v : JsValue) : JsValue :=
  match v with
  | JsObject fields =>
      default JsUndefined
        (snd <$> find (fun p => bool_decide (p.1 = k)) fields)
  | _ => JsUndefined
  end.

Definition js_truthy (v : JsValue) : bool :=
  match v with
  | JsUndefined => false
  | JsNumber z => negb (z =? 0)%Z
  | JsString s => negb (bool_decide (s = []))
  | JsArray _ | JsObject _ => true
  end.

(** A property that holds one value, an array of values, or is absent (the
    shapes the feed parser gives to a repeated element). *)
Inductive ValueOrArray (A : Type) :=
| Absent
| Single (a : A)
| Many (l : list A).
Arguments Absent {A}.
Arguments Single {A} a.
Arguments Many {A} l.

Module IAddress.
Record t := {
  Country : option jsstring;
  City : option jsstring;
  Street : option jsstring;
  PostalCode : option jsstring;
  HouseNum : option jsstring;
  Floor : option jsstring;
  Region : option jsstring;
  TimeZone : option jsstring
}.
End IAddress.

Module IEvseDataRecord.
Record t := {
  attributes_lastUpdate : option jsstring;
  EvseId : jsstring;
  OperatorId : option jsstring;
  ChargingStationId : option jsstring;
  ChargingStationName : option jsstring;
  EnChargingStationName : option jsstring;
  Address : IAddress.t;
  GeoCoordinates : JsValue;
  GeoChargingPointEntrance : JsValue;
  Plugs : JsValue;
  ChargingFacilities : JsValue;
  ChargingModes : JsValue;
  AuthenticationModes : JsValue;
  PaymentOptions : JsValue;
  ValueAddedServices : JsValue;
  MaxCapacity : option jsstring;
  Accessibility : option jsstring;
  HotlinePhoneNum : option jsstring;
  AdditionalInfo : option jsstring;
  EnAdditionalInfo : option jsstring;
  IsOpen24Hours : option jsstring;
  OpeningTime : option jsstring;
  HubOperatorID : option jsstring;
  ClearinghouseID : option jsstring;
  IsHubjectCompatible : option jsstring;
  DynamicInfoAvailable : option jsstring
}.

(** The assignment [evseData.OperatorId = v]. *)
Definition set_OperatorId (v : option jsstring) (d : t) : t :=
  {| attributes_lastUpdate := attributes_lastUpdate d;
     EvseId := EvseId d;
     OperatorId := v;
     ChargingStationId := ChargingStationId d;
     ChargingStationName := ChargingStationName d;
     EnChargingStationName := EnChargingStationName d;
     Address := Address d;
     GeoCoordinates := GeoCoordinates d;
     GeoChargingPointEntrance := GeoChargingPointEntrance d;
     Plugs := Plugs d;
     ChargingFacilities := ChargingFacilities d;
     ChargingModes := ChargingModes d;
     AuthenticationModes := AuthenticationModes d;
     PaymentOptions := PaymentOptions d;
     ValueAddedServices := ValueAddedServices d;
     MaxCapacity := MaxCapacity d;
     Accessibility := Accessibility d;
     HotlinePhoneNum := HotlinePhoneNum d;
     AdditionalInfo := AdditionalInfo d;
     EnAdditionalInfo := EnAdditionalInfo d;
     IsOpen24Hours := IsOpen24Hours d;
     OpeningTime := OpeningTime d;
     HubOperatorID := HubOperatorID d;
     ClearinghouseID := ClearinghouseID d;
     IsHubjectCompatible := IsHubjectCompatible d;
     DynamicInfoAvailable := DynamicInfoAvailable d |}.
End IEvseDataRecord.

Module IOperatorEvseData.
Record t := {
  OperatorID : jsstring;
  OperatorName : jsstring;
  EvseDataRecord : ValueOrArray IEvseDataRecord.t
}.
End IOperatorEvseData.

(** A row of table [Operator]; a top-level operator has no [parentId]. *)
Module IOperator.
Record t := {
  id : jsstring;
  name : option jsstring;
  parentId : option jsstring
}.
End IOperator.

(** A row of the translation table [EVSE_tr]. *)
Module IEVSE_tr.
Record t := {
  evseId : jsstring;
  chargingStationName : option jsstring;
  languageCode : jsstring;
  additionalInfo : option jsstring
}.
End IEVSE_tr.

(** A row of table [EVSE]. *)
Module IEVSE.
Record t := {
  id : jsstring;
  country : option jsstring;
  city : option jsstring;
  street : option jsstring;
  postalCode : option jsstring;
  houseNum : option jsstring;
  floor : option jsstring;
  region : option jsstring;
  timezone : option jsstring;
  longitude : JsValue;
  latitude : JsValue;
  entranceLongitude : JsValue;
  entranceLatitude : JsValue;
  maxCapacity : option jsstring;
  accessibilityId : JsValue;
  operatorId : option jsstring;
  chargingStationId : option jsstring;
  chargingStationName : option jsstring;
  lastUpdate : option jsstring;
  additionalInfo : option jsstring;
  isOpen24Hours : JsValue;
  openingTime : option jsstring;
  hubOperatorId : option jsstring;
  clearinghouseId : option jsstring;
  isHubjectCompatible : JsValue;
  dynamicInfoAvailable : option jsstring;
  hotlinePhoneNum : option jsstring
}.
End IEVSE.

(** A row of one of the join tables [EVSEAuthenticationMode],
    [EVSEChargingFacility], ...: the station and the catalog entry. *)
Module IEVSERelation.
Record t := {
  evseId : jsstring;
  enumId : Z
}.
End IEVSERelation.


(** ** Errors and promises *)

Inductive Error :=
| TypeError
| LookupFailure
| PersistenceFailure
| TransactionClosed.

(** What a call completes with: a value, or a thrown error. *)
Inductive Completion (A : Type) :=
| Normal (a : A)
| Throw (e : Error).
Arguments Normal {A} a.
Arguments Throw {A} e.

(** A settled promise. *)
Inductive Settled (A : Type) :=
| Fulfilled (a : A)
| Rejected (e : Error).
Arguments Fulfilled {A} a.
Arguments Rejected {A} e.

(** [p.then(f)] and [p.catch(f)] on settled promises. *)
Definition settled_then {A B} (p : Settled A) (f : A -> Settled B)
  : Settled B :=
  match p with
  | Fulfilled a => f a
  | Rejected e => Rejected e
  end.

Definition settled_catch {A} (p : Settled A) (f : Error -> Settled A)
  : Settled A :=
  match p with
  | Fulfilled a => Fulfilled a
  | Rejected e => f e
  end.

(** [Promise.all(ps)]: the values in the order of [ps], or the first
    rejection. *)
Fixpoint Promise_all {A} (ps : list (Settled A)) : Settled (list A) :=
  match ps with
  | [] => Fulfilled []
  | p :: ps' =>
      settled_then p (fun a =>
      settled_then (Promise_all ps') (fun l => Fulfilled (a :: l)))
  end.

(** [array.forEach(f)] with the state that [f] mutates passed along; the
    result is [None] when a call of [f] does not return. *)
Fixpoint forEach {A S} (f : S -> A -> option S) (l : list A) (st : S)
  : option S :=
  match l with
  | [] => Some st
  | a :: l' => f st a ≫= forEach f l'
  end.

(** ** The injected helper

    [DataImportHelper] is a collaborator of the importer; its methods are
    the fields of this record. *)
Record DataImportHelper := {
  getLanguageCodeByISO3166Alpha3 : jsstring -> Settled jsstring;
  getArrayByValue_Array : forall A, ValueOrArray A -> list A;
  getLongitudeByEvseDataRecord : JsValue -> JsValue;
  getLatitudeByEvseDataRecord : JsValue -> JsValue;
  getEnumIdByString : list JsValue -> option jsstring -> JsValue;
  getIntByBooleanString : option jsstring -> JsValue;
  getEvseRelationByEvseData :
    list IEvseDataRecord.t -> list JsValue -> jsstring ->
    (IEvseDataRecord.t -> JsValue) -> list IEVSERelation.t;
  getChargingFacilitiesByEvseData :
    list IEvseDataRecord.t -> list JsValue -> list IEVSERelation.t
}.

(** ** Localization extraction *)

Section LocalizationExtractor.
Variable dataImportHelper : DataImportHelper.

Import IEvseDataRecord.

Definition CHARGING_STATION_NAME_ALPHA_3 : jsstring := js "DEU".
Definition EN_CHARGING_STATION_NAME_ALPHA_3 : jsstring := js "GBR".

Definition getEvseTr (alpha3 evseId : jsstring)
    (chargingStationName additionalInfo : option jsstring)
  : Settled IEVSE_tr.t :=
  settled_then
    (settled_catch (getLanguageCodeByISO3166Alpha3 dataImportHelper alpha3)
       (fun _ => Fulfilled alpha3))
    (fun languageCode =>
       Fulfilled {| IEVSE_tr.evseId := evseId;
                    IEVSE_tr.chargingStationName := chargingStationName;
                    IEVSE_tr.languageCode := languageCode;
                    IEVSE_tr.additionalInfo := additionalInfo |}).

(** The [while (match != null)] loop over one packed field, with the
    [exec] call that precedes each test of the condition; [None] when
    [fuel] calls of [exec] do not end the loop. *)
Fixpoint while_match (fuel : nat) (data : t) (info : jsstring)
    (st : RegExp * list (Settled IEVSE_tr.t))
  : option (RegExp * list (Settled IEVSE_tr.t)) :=
  match fuel with
  | O => None
  | S fuel' =>
      match LOCALIZED_INFO_REGEX_exec st.1 info with
      | (None, re') => Some (re', st.2)
      | (Some m, re') =>
          let countryAlpha3 := group1 m in
          let content := trim (group2 m) in
          let chargingStationName :=
            if decide (countryAlpha3 = EN_CHARGING_STATION_NAME_ALPHA_3)
            then EnChargingStationName data
            else if decide (countryAlpha3 = CHARGING_STATION_NAME_ALPHA_3)
            then ChargingStationName data
            else None in
          while_match fuel' data info
            (re', st.2 ++ [getEvseTr countryAlpha3 (EvseId data)
                             chargingStationName (Some content)])
      end
  end.

(** [name && name.trim()] as a condition. *)
Definition non_blank (name : option jsstring) : bool :=
  truthy name && truthy (trim <$> name).

(** The body of [evseData.forEach] in [getInternationalData]; the state
    is the RegExp object and the array [evseTrsPromises]. *)
Definition getInternationalData_body
    (st : RegExp * list (Settled IEVSE_tr.t)) (data : t)
  : option (RegExp * list (Settled IEVSE_tr.t)) :=
  if negb (truthy (EnAdditionalInfo data)) then Some st
  else
    let info := default [] (EnAdditionalInfo data) in
    '(re, ps) ← while_match (S (length info)) data info st;
    let ps :=
      if negb (anchor_regex_test EN_CHARGING_STATION_NAME_ALPHA_3 info)
         && non_blank (EnChargingStationName data)
      then ps ++ [getEvseTr EN_CHARGING_STATION_NAME_ALPHA_3 (EvseId data)
                    (EnChargingStationName data) None]
      else ps in
    let ps :=
      if negb (anchor_regex_test CHARGING_STATION_NAME_ALPHA_3 info)
         && non_blank (ChargingStationName data)
      then ps ++ [getEvseTr CHARGING_STATION_NAME_ALPHA_3 (EvseId data)
                    (ChargingStationName data) None]
      else ps in
    Some (re, ps).

Definition getInternationalData (evseData : list t)
  : option (Settled (list IEVSE_tr.t)) :=
  '(_, evseTrsPromises) ← forEach getInternationalData_body evseData
                            (new_RegExp, []);
  Some (Promise_all evseTrsPromises).

End LocalizationExtractor.

(** ** Sub-operator resolution *)

Section OperatorResolver.
Import IEvseDataRecord.

(** The loop [evseData.forEach] of
    [processPossibleSubOperatorsFromEvseData], started with the array
    [subOperators] built so far. The records are objects that the loop
    mutates; the result is the array of records as the loop leaves it,
    and the array [subOperators], or the error thrown by indexing the
    [null] that [exec] returns for an id without a match. The records of
    a parsed feed are distinct objects, so the array is a list of
    values. *)
Fixpoint subOperators_forEach (evseData : list t)
    (subOperators : list IOperator.t)
  : list t * Completion (list IOperator.t) :=
  match evseData with
  | [] => ([], Normal subOperators)
  | evseData1 :: rest =>
      match OPERATOR_ID_REGEX_exec (EvseId evseData1) with
      | None => (evseData1 :: rest, Throw TypeError)
      | Some possibleSupOperatorId =>
          if decide (OperatorId evseData1 ≠ Some possibleSupOperatorId)
          then
            let r :=
              subOperators_forEach rest
                (subOperators ++
                   [{| IOperator.id := possibleSupOperatorId;
                       IOperator.name := None;
                       IOperator.parentId := OperatorId evseData1 |}]) in
            (set_OperatorId (Some possibleSupOperatorId) evseData1 :: r.1,
             r.2)
          else
            let r := subOperators_forEach rest subOperators in
            (evseData1 :: r.1, r.2)
      end
  end.

(** The part of [processPossibleSubOperatorsFromEvseData] before the
    write: the records after the loop and the sub-operators to insert. *)
Definition possibleSubOperators (evseData : list t)
  : list t * Completion (list IOperator.t) :=
  subOperators_forEach evseData [].

End OperatorResolver.

(** ** Persistence

    The importer reaches the store through [bookshelf.knex]: a table is
    cleared with [delete()], rows are written with [insertOrUpdate(rows)],
    and [transaction(cb)] runs the queries that [cb] sends through its
    handle as one unit. *)

Inductive JoinTable :=
| EVSEAuthenticationMode
| EVSEChargingFacility
| EVSEChargingMode
| EVSEPaymentOption
| EVSEPlug
| EVSEValueAddedService.

#[global] Instance JoinTable_eq_dec : EqDecision JoinTable.
Proof. solve_decision. Defined.

Module Catalog.
Inductive t :=
| Accessibility
| AuthenticationMode
| ChargingFacility
| ChargingMode
| PaymentOption
| Plug
| ValueAddedService.
End Catalog.

(** The tables of the store, each keyed by its primary key. *)
Record Tables := {
  tbl_Operator : gmap jsstring IOperator.t;
  tbl_EVSE : gmap jsstring IEVSE.t;
  tbl_EVSE_tr : gmap (jsstring * jsstring) IEVSE_tr.t;
  tbl_join : JoinTable -> gmap (jsstring * Z) IEVSERelation.t;
  tbl_catalog : Catalog.t -> list JsValue
}.

(** The handle a query is sent through: the connection pool
    [bookshelf.knex], or the handle [trx] of the open transaction. *)
Inductive Knex := Pool | Trx.

(** The state around a run: the committed tables, the tables as the open
    transaction sees them, the number of queries sent so far, and the
    catalogs cached in the fields of the importer ([this.accessibilities],
    ...). *)
Record World := {
  committed : Tables;
  pending : option Tables;
  issued : nat;
  caches : Catalog.t -> option (list JsValue)
}.

Definition set_committed (T : Tables) (w : World) : World :=
  {| committed := T; pending := pending w; issued := issued w;
     caches := caches w |}.
Definition set_pending (T : option Tables) (w : World) : World :=
  {| committed := committed w; pending := T; issued := issued w;
     caches := caches w |}.
Definition set_issued (n : nat) (w : World) : World :=
  {| committed := committed w; pending := pending w; issued := n;
     caches := caches w |}.
Definition set_caches (c : Catalog.t -> option (list JsValue)) (w : World)
  : World :=
  {| committed := committed w; pending := pending w; issued := issued w;
     caches := c |}.

(** A promise of the importer: run in a world, it settles and leaves a
    world, or ([None]) never settles. *)
Definition Promise (A : Type) : Type := World -> option (Settled A * World).

Definition resolve {A} (a : A) : Promise A :=
  fun w => Some (Fulfilled a, w).

Definition reject {A} (e : Error) : Promise A :=
  fun w => Some (Rejected e, w).

(** [p.then(f)]. *)
Definition and_then {A B} (p : Promise A) (f : A -> Promise B) : Promise B :=
  fun w =>
    match p w with
    | Some (Fulfilled a, w') => f a w'
    | Some (Rejected e, w') => Some (Rejected e, w')
    | None => None
    end.

(** A callback of [then] that throws rejects the promise. *)
Definition of_completion {A} (c : Completion A) : Promise A :=
  match c with
  | Normal a => resolve a
  | Throw e => reject e
  end.

(** Rows are written in order; a row whose primary key is present replaces
    the row under that key. *)
Definition upsert `{Countable K} {V} (key : V -> K) (rows : list V)
    (m : gmap K V) : gmap K V :=
  foldl (fun m r => <[key r := r]> m) m rows.

Section Persistence.
(** Modelled from the spec: the persistence collaborator ("delete all
    rows", "bulk insert, updating on primary-key conflict", grouping into
    one atomic transaction) is reached through [../bookshelf], which is
    not part of the sources. Any query may fail: [query_fails n] tells
    whether the query sent as number [n] does. *)
Variable query_fails : nat -> bool.

(** Modelled from the spec: one query, reading [A] and updating the
    tables that its handle works on. *)
Definition query {A} (knex : Knex) (run : Tables -> A * Tables)
  : Promise A :=
  fun w =>
    let w' := set_issued (S (issued w)) w in
    if query_fails (issued w) then Some (Rejected PersistenceFailure, w')
    else
      match knex with
      | Pool =>
          let r := run (committed w) in
          Some (Fulfilled r.1, set_committed r.2 w')
      | Trx =>
          match pending w with
          | Some T =>
              let r := run T in
              Some (Fulfilled r.1, set_pending (Some r.2) w')
          | None => Some (Rejected TransactionClosed, w')
          end
      end.

(** Modelled from the spec: [bookshelf.knex.transaction(cb)]. The
    queries sent through [trx] work on a copy of the committed tables;
    the copy replaces them when the promise of [cb] is fulfilled and the
    commit succeeds, and is dropped otherwise. *)
Definition transaction {A} (cb : Knex -> Promise A) : Promise A :=
  fun w =>
    match cb Trx (set_pending (Some (committed w)) w) with
    | Some (Fulfilled a, w1) =>
        let w2 := set_issued (S (issued w1)) w1 in
        match pending w1 with
        | Some T =>
            if query_fails (issued w1)
            then Some (Rejected PersistenceFailure, set_pending None w2)
            else Some (Fulfilled a, set_pending None (set_committed T w2))
        | None => Some (Rejected TransactionClosed, w2)
        end
    | Some (Rejected e, w1) => Some (Rejected e, set_pending None w1)
    | None => None
    end.

(** Modelled from the spec: [knex('Operator').delete()] clears the
    operator rows. *)
Definition delete_Operator (knex : Knex) : Promise unit :=
  query knex (fun T =>
    (tt, {| tbl_Operator := ∅; tbl_EVSE := tbl_EVSE T;
            tbl_EVSE_tr := tbl_EVSE_tr T; tbl_join := tbl_join T;
            tbl_catalog := tbl_catalog T |})).

(** Modelled from the spec: [knex('EVSE').delete()] clears all
    station-derived rows (stations, translations, all join tables). *)
Definition delete_EVSE (knex : Knex) : Promise unit :=
  query knex (fun T =>
    (tt, {| tbl_Operator := tbl_Operator T; tbl_EVSE := ∅;
            tbl_EVSE_tr := ∅; tbl_join := fun _ => ∅;
            tbl_catalog := tbl_catalog T |})).

(** Modelled from the spec: [knex('Operator').insertOrUpdate(rows)]. *)
Definition insertOrUpdate_Operator (knex : Knex) (rows : list IOperator.t)
  : Promise unit :=
  query knex (fun T =>
    (tt, {| tbl_Operator := upsert IOperator.id rows (tbl_Operator T);
            tbl_EVSE := tbl_EVSE T; tbl_EVSE_tr := tbl_EVSE_tr T;
            tbl_join := tbl_join T; tbl_catalog := tbl_catalog T |})).

(** Modelled from the spec: [knex('EVSE').insertOrUpdate(rows)]. *)
Definition insertOrUpdate_EVSE (knex : Knex) (rows : list IEVSE.t)
  : Promise unit :=
  query knex (fun T =>
    (tt, {| tbl_Operator := tbl_Operator T;
            tbl_EVSE := upsert IEVSE.id rows (tbl_EVSE T);
            tbl_EVSE_tr := tbl_EVSE_tr T;
            tbl_join := tbl_join T; tbl_catalog := tbl_catalog T |})).

(** Modelled from the spec: [knex('EVSE_tr').insertOrUpdate(rows)]. *)
Definition insertOrUpdate_EVSE_tr (knex : Knex) (rows : list IEVSE_tr.t)
  : Promise unit :=
  query knex (fun T =>
    (tt, {| tbl_Operator := tbl_Operator T; tbl_EVSE := tbl_EVSE T;
            tbl_EVSE_tr :=
              upsert (fun r => (IEVSE_tr.evseId r, IEVSE_tr.languageCode r))
                rows (tbl_EVSE_tr T);
            tbl_join := tbl_join T; tbl_catalog := tbl_catalog T |})).

(** Modelled from the spec: [knex(j).insertOrUpdate(rows)] for a join
    table [j]. *)
Definition insertOrUpdate_join (knex : Knex) (j : JoinTable)
    (rows : list IEVSERelation.t) : Promise unit :=
  query knex (fun T =>
    (tt, {| tbl_Operator := tbl_Operator T; tbl_EVSE := tbl_EVSE T;
            tbl_EVSE_tr := tbl_EVSE_tr T;
            tbl_join := fun j' =>
              if decide (j' = j)
              then upsert
                     (fun r => (IEVSERelation.evseId r,
                                IEVSERelation.enumId r))
                     rows (tbl_join T j)
              else tbl_join T j';
            tbl_catalog := tbl_catalog T |})).

(** Modelled from the spec: [Model.fetchAll()] of a catalog model. *)
Definition fetchAll (c : Catalog.t) : Promise (list JsValue) :=
  query Pool (fun T => (tbl_catalog T c, T)).

End Persistence.

(** ** The importer *)

Section DataImporter.
Variable dataImportHelper : DataImportHelper.
Variable query_fails : nat -> bool.

Import IEvseDataRecord.

(** [this.x || X.fetchAll()] *)
Definition cached_or_fetch (c : Catalog.t) : Promise (list JsValue) :=
  fun w =>
    match caches w c with
    | Some models => resolve models w
    | None => fetchAll query_fails c w
    end.

Definition loadDependentData : Promise unit :=
  and_then (cached_or_fetch Catalog.Accessibility) (fun accessibilities =>
  and_then (cached_or_fetch Catalog.AuthenticationMode)
    (fun authenticationModes =>
  and_then (cached_or_fetch Catalog.ChargingFacility)
    (fun chargingFacilities =>
  and_then (cached_or_fetch Catalog.ChargingMode) (fun chargingModes =>
  and_then (cached_or_fetch Catalog.PaymentOption) (fun paymentOptions =>
  and_then (cached_or_fetch Catalog.Plug) (fun plugs =>
  and_then (cached_or_fetch Catalog.ValueAddedService)
    (fun valueAddedServices =>
  fun w =>
    resolve tt
      (set_caches
         (fun c =>
            Some match c with
                 | Catalog.Accessibility => accessibilities
                 | Catalog.AuthenticationMode => authenticationModes
                 | Catalog.ChargingFacility => chargingFacilities
                 | Catalog.ChargingMode => chargingModes
                 | Catalog.PaymentOption => paymentOptions
                 | Catalog.Plug => plugs
                 | Catalog.ValueAddedService => valueAddedServices
                 end) w)))))))).

(** [this.x.models]; reading [models] of an unset field throws. *)
Definition models (c : Catalog.t) : Promise (list JsValue) :=
  fun w =>
    match caches w c with
    | Some m => resolve m w
    | None => reject TypeError w
    end.

Definition clearData (trx : Knex) : Promise unit :=
  delete_EVSE query_fails trx.

Definition mapOperatorDataToOperators
    (operatorData : list IOperatorEvseData.t) : list IOperator.t :=
  (fun data =>
     {| IOperator.id := IOperatorEvseData.OperatorID data;
        IOperator.name := Some (IOperatorEvseData.OperatorName data);
        IOperator.parentId := None |}) <$> operatorData.

Definition processOperatorData (operatorData : list IOperatorEvseData.t)
  : Promise unit :=
  let operators := mapOperatorDataToOperators operatorData in
  transaction query_fails (fun trx =>
    and_then (delete_Operator query_fails trx) (fun _ =>
    insertOrUpdate_Operator query_fails trx operators)).

(** The records of each operator, each with [OperatorId] set to the id
    of the operator it is listed under. *)
Definition retrieveEvseDataFromOperatorData
    (operatorData : list IOperatorEvseData.t) : list t :=
  foldl
    (fun evseData operatorData1 =>
       evseData ++
         (set_OperatorId
            (Some (IOperatorEvseData.OperatorID operatorData1)) <$>
            getArrayByValue_Array dataImportHelper _
              (IOperatorEvseData.EvseDataRecord operatorData1)))
    [] operatorData.

(** The promise is fulfilled with the array of records as the loop left
    it: the later steps of [processEvseData] read the same objects. *)
Definition processPossibleSubOperatorsFromEvseData (evseData : list t)
    (trx : Knex) : Promise (list t) :=
  let r := possibleSubOperators evseData in
  and_then (of_completion r.2) (fun subOperators =>
  and_then (insertOrUpdate_Operator query_fails trx subOperators) (fun _ =>
  resolve r.1)).

Definition mapEvseDataToEvses (accessibilities : list JsValue)
    (evseData : list t) : list IEVSE.t :=
  (fun evseData =>
     {| IEVSE.id := EvseId evseData;
        IEVSE.country := IAddress.Country (Address evseData);
        IEVSE.city := IAddress.City (Address evseData);
        IEVSE.street := IAddress.Street (Address evseData);
        IEVSE.postalCode := IAddress.PostalCode (Address evseData);
        IEVSE.houseNum := IAddress.HouseNum (Address evseData);
        IEVSE.floor := IAddress.Floor (Address evseData);
        IEVSE.region := IAddress.Region (Address evseData);
        IEVSE.timezone := IAddress.TimeZone (Address evseData);
        IEVSE.longitude :=
          getLongitudeByEvseDataRecord dataImportHelper
            (GeoCoordinates evseData);
        IEVSE.latitude :=
          getLatitudeByEvseDataRecord dataImportHelper
            (GeoCoordinates evseData);
        IEVSE.entranceLongitude :=
          getLongitudeByEvseDataRecord dataImportHelper
            (GeoChargingPointEntrance evseData);
        IEVSE.entranceLatitude :=
          getLatitudeByEvseDataRecord dataImportHelper
            (GeoChargingPointEntrance evseData);
        IEVSE.maxCapacity := MaxCapacity evseData;
        IEVSE.accessibilityId :=
          getEnumIdByString dataImportHelper accessibilities
            (Accessibility evseData);
        IEVSE.operatorId := OperatorId evseData;
        IEVSE.chargingStationId := ChargingStationId evseData;
        IEVSE.chargingStationName := ChargingStationName evseData;
        IEVSE.lastUpdate := attributes_lastUpdate evseData;
        IEVSE.additionalInfo := AdditionalInfo evseData;
        IEVSE.isOpen24Hours :=
          getIntByBooleanString dataImportHelper (IsOpen24Hours evseData);
        IEVSE.openingTime := OpeningTime evseData;
        IEVSE.hubOperatorId := HubOperatorID evseData;
        IEVSE.clearinghouseId := ClearinghouseID evseData;
        IEVSE.isHubjectCompatible :=
          getIntByBooleanString dataImportHelper
            (IsHubjectCompatible evseData);
        IEVSE.dynamicInfoAvailable := DynamicInfoAvailable evseData;
        IEVSE.hotlinePhoneNum := HotlinePhoneNum evseData |})
    <$> evseData.

(** A promise of [getInternationalData] that never settles stays so. *)
Definition processInternationalData (evseData : list t) (trx : Knex)
  : Promise unit :=
  fun w =>
    match getInternationalData dataImportHelper evseData with
    | Some (Fulfilled evseTrs) =>
        insertOrUpdate_EVSE_tr query_fails trx evseTrs w
    | Some (Rejected e) => reject e w
    | None => None
    end.

(** [o ? o.k : []] *)
Definition options_of (k : string) (o : JsValue) : JsValue :=
  if js_truthy o then get_prop (js k) o else JsArray [].

(** [rows.length ? trx(j).insertOrUpdate(rows) : null] *)
Definition insert_if_any (trx : Knex) (j : JoinTable)
    (rows : list IEVSERelation.t) : Promise unit :=
  match rows with
  | [] => resolve tt
  | _ :: _ => insertOrUpdate_join query_fails trx j rows
  end.

(** The writes of [Promise.all] go through the one connection of the
    transaction, in the order of the array. *)
Definition processEVSERelationalData (evseData : list t) (trx : Knex)
  : Promise unit :=
  and_then (models Catalog.AuthenticationMode) (fun authenticationModes =>
  let evseAuthenticationModes :=
    getEvseRelationByEvseData dataImportHelper evseData
      authenticationModes (js "authenticationModeId")
      (fun evseData =>
         options_of "AuthenticationMode" (AuthenticationModes evseData)) in
  and_then (models Catalog.ChargingFacility) (fun chargingFacilities =>
  let evseChargingFacilities :=
    getChargingFacilitiesByEvseData dataImportHelper evseData
      chargingFacilities in
  and_then (models Catalog.ChargingMode) (fun chargingModes =>
  let evseChargingModes :=
    getEvseRelationByEvseData dataImportHelper evseData
      chargingModes (js "chargingModeId")
      (fun evseData =>
         options_of "ChargingMode" (ChargingModes evseData)) in
  and_then (models Catalog.PaymentOption) (fun paymentOptions =>
  let evsePaymentOptions :=
    getEvseRelationByEvseData dataImportHelper evseData
      paymentOptions (js "paymentOptionId")
      (fun evseData =>
         options_of "PaymentOption" (PaymentOptions evseData)) in
  and_then (models Catalog.Plug) (fun plugs =>
  let evsePlugs :=
    getEvseRelationByEvseData dataImportHelper evseData
      plugs (js "plugId")
      (fun evseData => options_of "Plug" (Plugs evseData)) in
  and_then (models Catalog.ValueAddedService) (fun valueAddedServices =>
  let evseValueAddedServices :=
    getEvseRelationByEvseData dataImportHelper evseData
      valueAddedServices (js "valueAddedServiceId")
      (fun evseData =>
         options_of "ValueAddedService" (ValueAddedServices evseData)) in
  and_then (insert_if_any trx EVSEAuthenticationMode
              evseAuthenticationModes) (fun _ =>
  and_then (insert_if_any trx EVSEChargingFacility
              evseChargingFacilities) (fun _ =>
  and_then (insert_if_any trx EVSEChargingMode evseChargingModes) (fun _ =>
  and_then (insert_if_any trx EVSEPaymentOption evsePaymentOptions)
    (fun _ =>
  and_then (insert_if_any trx EVSEPlug evsePlugs) (fun _ =>
  insert_if_any trx EVSEValueAddedService
    evseValueAddedServices))))))))))).

(** The station phase inside its transaction: the callback handed to
    [bookshelf.knex.transaction]. *)
Definition processEvseData_steps (evseData : list t) (trx : Knex)
  : Promise unit :=
  and_then (clearData trx) (fun _ =>
  and_then (processPossibleSubOperatorsFromEvseData evseData trx)
    (fun evseData =>
  and_then (models Catalog.Accessibility) (fun accessibilities =>
  let evses := mapEvseDataToEvses accessibilities evseData in
  and_then (insertOrUpdate_EVSE query_fails trx evses) (fun _ =>
  and_then (processInternationalData evseData trx) (fun _ =>
  processEVSERelationalData evseData trx))))).

Definition processEvseData (operatorData : list IOperatorEvseData.t)
  : Promise unit :=
  let evseData := retrieveEvseDataFromOperatorData operatorData in
  transaction query_fails (processEvseData_steps evseData).

Definition execute (operatorData : list IOperatorEvseData.t)
  : Promise unit :=
  and_then loadDependentData (fun _ =>
  and_then (processOperatorData operatorData) (fun _ =>
  processEvseData operatorData)).

End DataImporter.

(** ** Specification-level notions *)

(** The language code of a translation row for country code [alpha3]: the
    answer of the lookup, or [alpha3] itself when the lookup fails. *)
Definition languageCodeOf (h : DataImportHelper) (alpha3 : jsstring)
  : jsstring :=
  match getLanguageCodeByISO3166Alpha3 h alpha3 with
  | Fulfilled languageCode => languageCode
  | Rejected _ => alpha3
  end.

(** The rows that [getInternationalData] is fulfilled with. *)
Definition extracted (h : DataImportHelper) (l : list IEvseDataRecord.t)
  : list IEVSE_tr.t :=
  match getInternationalData h l with
  | Some (Fulfilled rows) => rows
  | _ => []
  end.

(** The segments of a packed field: the matches that successive calls of
    [exec] return, from [lastIndex] on. *)
Fixpoint segments_from (fuel : nat) (re : RegExp) (info : jsstring)
  : list RegExpMatch :=
  match fuel with
  | O => []
  | S fuel' =>
      match LOCALIZED_INFO_REGEX_exec re info with
      | (Some m, re') => m :: segments_from fuel' re' info
      | (None, _) => []
      end
  end.

Definition segments (info : jsstring) : list RegExpMatch :=
  segments_from (S (length info)) new_RegExp info.

Definition DELIMITER : jsstring := [PIPE; PIPE; PIPE].

(** The row that [getEvseTr] is fulfilled with. *)
Definition evseTr (h : DataImportHelper) (alpha3 evseId : jsstring)
    (chargingStationName additionalInfo : option jsstring) : IEVSE_tr.t :=
  {| IEVSE_tr.evseId := evseId;
     IEVSE_tr.chargingStationName := chargingStationName;
     IEVSE_tr.languageCode := languageCodeOf h alpha3;
     IEVSE_tr.additionalInfo := additionalInfo |}.

(** The row of one segment of the packed field of station [d]. *)
Definition segment_row (h : DataImportHelper) (d : IEvseDataRecord.t)
    (m : RegExpMatch) : IEVSE_tr.t :=
  evseTr h (group1 m) (IEvseDataRecord.EvseId d)
    (if decide (group1 m = EN_CHARGING_STATION_NAME_ALPHA_3)
     then IEvseDataRecord.EnChargingStationName d
     else if decide (group1 m = CHARGING_STATION_NAME_ALPHA_3)
     then IEvseDataRecord.ChargingStationName d
     else None)
    (Some (trim (group2 m))).

(** The backfill row of station [d] for anchor code [alpha3] and the name
    field [name] that belongs to it, if any. *)
Definition backfill_rows (h : DataImportHelper) (d : IEvseDataRecord.t)
    (alpha3 : jsstring) (name : option jsstring) (info : jsstring)
  : list IEVSE_tr.t :=
  if negb (anchor_regex_test alpha3 info) && non_blank name
  then [evseTr h alpha3 (IEvseDataRecord.EvseId d) name None]
  else [].

(** The rows of one station: those of the segments of its packed field,
    then the backfill rows of the two anchors. *)
Definition station_rows (h : DataImportHelper) (d : IEvseDataRecord.t)
  : list IEVSE_tr.t :=
  if truthy (IEvseDataRecord.EnAdditionalInfo d) then
    let info := default [] (IEvseDataRecord.EnAdditionalInfo d) in
    (segment_row h d <$> segments info)
    ++ backfill_rows h d EN_CHARGING_STATION_NAME_ALPHA_3
         (IEvseDataRecord.EnChargingStationName d) info
    ++ backfill_rows h d CHARGING_STATION_NAME_ALPHA_3
         (IEvseDataRecord.ChargingStationName d) info
  else [].

(** A three-letter country code. *)
Definition alpha3_code (a : jsstring) : Prop :=
  length a = 3%nat ∧ Forall (fun c => is_upper c = true) a.

(** Rows are unique per [(evseId, languageCode)]. *)
Definition row_key (r : IEVSE_tr.t) : jsstring * jsstring :=
  (IEVSE_tr.evseId r, IEVSE_tr.languageCode r).

Definition unique_per_station_language (rows : list IEVSE_tr.t) : Prop :=
  NoDup (row_key <$> rows).

(** The country codes of the rows of one station, in the order of the
    rows. *)
Definition backfill_codes (alpha3 : jsstring) (name : option jsstring)
    (info : jsstring) : list jsstring :=
  if negb (anchor_regex_test alpha3 info) && non_blank name
  then [alpha3] else [].

Definition station_codes (d : IEvseDataRecord.t) : list jsstring :=
  if truthy (IEvseDataRecord.EnAdditionalInfo d) then
    let info := default [] (IEvseDataRecord.EnAdditionalInfo d) in
    (group1 <$> segments info)
    ++ backfill_codes EN_CHARGING_STATION_NAME_ALPHA_3
         (IEvseDataRecord.EnChargingStationName d) info
    ++ backfill_codes CHARGING_STATION_NAME_ALPHA_3
         (IEvseDataRecord.ChargingStationName d) info
  else [].

(** The station identifier matches the operator-id pattern. *)
Definition well_formed_id (d : IEvseDataRecord.t) : Prop :=
  is_Some (OPERATOR_ID_REGEX_exec (IEvseDataRecord.EvseId d)).

(** The candidate operator id of a station: the first match of the pattern
    in its identifier. *)
Definition candidate (d : IEvseDataRecord.t) : jsstring :=
  default [] (OPERATOR_ID_REGEX_exec (IEvseDataRecord.EvseId d)).

(** Sub-operator resolution in the words of the specification: a station
    whose candidate equals its nominal operator id is left alone and emits
    nothing; any other station gets the candidate as its operator id and
    emits the operator row [{id: candidate, name: null, parentId: nominal}]. *)
Definition spec_resolved_station (d : IEvseDataRecord.t)
  : IEvseDataRecord.t :=
  if decide (IEvseDataRecord.OperatorId d = Some (candidate d)) then d
  else IEvseDataRecord.set_OperatorId (Some (candidate d)) d.

Definition spec_derived_operators (d : IEvseDataRecord.t)
  : list IOperator.t :=
  if decide (IEvseDataRecord.OperatorId d = Some (candidate d)) then []
  else [{| IOperator.id := candidate d;
           IOperator.name := None;
           IOperator.parentId := IEvseDataRecord.OperatorId d |}].

(** A promise whose queries leave the committed tables alone. *)
Definition keeps_committed {A} (p : Promise A) : Prop :=
  ∀ w r w', p w = Some (r, w') → committed w' = committed w.

(** A promise that, fulfilled inside a transaction, leaves the operator
    rows and the station rows of the transaction as they were. *)
Definition keeps_operators_and_stations {A} (p : Promise A) : Prop :=
  ∀ w a w' T,
    p w = Some (Fulfilled a, w') → pending w = Some T →
    ∃ T', pending w' = Some T' ∧
          tbl_Operator T' = tbl_Operator T ∧ tbl_EVSE T' = tbl_EVSE T.

(** [c] occurs in [s] as a substring. *)
Definition substring_of (c s : jsstring) : Prop :=
  ∃ pre suf, s = pre ++ c ++ suf.

(** A search for [c] in [s], position by position. *)
Fixpoint has_substring (c s : jsstring) : bool :=
  bool_decide (is_Some (lits c s)) ||
  match s with
  | _ :: s' => has_substring c s'
  | [] => false
  end.

(** The shape of an operator id: two letters, an optional star and three
    letters or digits; or an optional plus sign, one to three digits, a
    star and three digits. *)
Definition operator_id_shape (p : jsstring) : Prop :=
  (∃ a b x y z,
     (p = [a; b; x; y; z] ∨ p = [a; b; STAR; x; y; z]) ∧
     is_alpha a = true ∧ is_alpha b = true ∧
     is_alnum x = true ∧ is_alnum y = true ∧ is_alnum z = true) ∨
  (∃ sign ds x y z,
     p = sign ++ ds ++ [STAR; x; y; z] ∧
     (sign = [] ∨ sign = [PLUS]) ∧
     (1 ≤ length ds ≤ 3)%nat ∧
     Forall (fun c => is_digit c = true) ds ∧
     is_digit x = true ∧ is_digit y = true ∧ is_digit z = true).

(** A station listed under the operator whose id its identifier starts
    with. *)
Definition station_of_own_operator (d : IEvseDataRecord.t) : Prop :=
  ∃ p rest,
    operator_id_shape p ∧
    IEvseDataRecord.OperatorId d = Some p ∧
    IEvseDataRecord.EvseId d = p ++ rest.

(** The identifier matches the operator-id pattern: an operator id occurs
    in it. *)
Definition matches_operator_id_pattern (s : jsstring) : Prop :=
  ∃ pre p suf, s = pre ++ p ++ suf ∧ operator_id_shape p.

(** [c] is the first match of the pattern in [s]: an operator id that
    occurs in [s] such that no operator id starts further to the left. *)
Definition first_operator_id (s c : jsstring) : Prop :=
  ∃ pre suf,
    s = pre ++ c ++ suf ∧ operator_id_shape c ∧
    ∀ pre' p' suf', s = pre' ++ p' ++ suf' → operator_id_shape p' →
                    (length pre ≤ length pre')%nat.

(** The rule of the specification for a station [d] whose candidate is
    [c]: the record it is left as, and the operator rows emitted for
    it. *)
Definition resolved_with (d : IEvseDataRecord.t) (c : jsstring)
  : IEvseDataRecord.t :=
  if decide (IEvseDataRecord.OperatorId d = Some c) then d
  else IEvseDataRecord.set_OperatorId (Some c) d.

Definition derived_with (d : IEvseDataRecord.t) (c : jsstring)
  : list IOperator.t :=
  if decide (IEvseDataRecord.OperatorId d = Some c) then []
  else [{| IOperator.id := c;
           IOperator.name := None;
           IOperator.parentId := IEvseDataRecord.OperatorId d |}].

(** The rule holds of the station [d] at index [i] of the batch [l]: the
    resolution of the batch leaves at index [i] the record that the rule
    gives for [d], and returns operator rows, among them those that the
    rule emits for [d]. *)
Definition station_resolved_by_rule (l : list IEvseDataRecord.t) (i : nat)
    (d : IEvseDataRecord.t) : Prop :=
  ∃ c, first_operator_id (IEvseDataRecord.EvseId d) c ∧
       (possibleSubOperators l).1 !! i = Some (resolved_with d c) ∧
       ∃ ops, (possibleSubOperators l).2 = Normal ops ∧
              ∀ op, op ∈ derived_with d c → op ∈ ops.

(** Every station row carries the id of an operator row of the same
    tables. *)
Definition stations_reference_operators (T : Tables) : Prop :=
  ∀ k row, tbl_EVSE T !! k = Some row →
    ∃ o, IEVSE.operatorId row = Some o ∧ is_Some (tbl_Operator T !! o).

(** A promise that, run inside a transaction whose station rows reference
    operator rows, leaves them so however it settles. *)
Definition keeps_references {A} (p : Promise A) : Prop :=
  ∀ w r w' T,
    p w = Some (r, w') → pending w = Some T →
    stations_reference_operators T →
    ∃ T', pending w' = Some T' ∧ stations_reference_operators T'.

(** A promise that, fulfilled inside a transaction, has left the operator
    rows, the station rows and the translation rows of the transaction as
    they were. *)
Definition writes_joins_only {A} (p : Promise A) : Prop :=
  ∀ w a w' T,
    p w = Some (Fulfilled a, w') → pending w = Some T →
    ∃ T', pending w' = Some T' ∧
          tbl_Operator T' = tbl_Operator T ∧ tbl_EVSE T' = tbl_EVSE T ∧
          tbl_EVSE_tr T' = tbl_EVSE_tr T.

(** ** Sample inputs *)

(** A lookup that knows German and English and fails for any other code. *)
Definition sample_helper : DataImportHelper :=
  {| getLanguageCodeByISO3166Alpha3 := fun alpha3 =>
       if decide (alpha3 = js "DEU") then Fulfilled (js "de")
       else if decide (alpha3 = js "GBR") then Fulfilled (js "en")
       else Rejected LookupFailure;
     getArrayByValue_Array := fun A v =>
       match v with
       | Absent => []
       | Single a => [a]
       | Many l => l
       end;
     getLongitudeByEvseDataRecord := fun v => get_prop (js "Longitude") v;
     getLatitudeByEvseDataRecord := fun v => get_prop (js "Latitude") v;
     getEnumIdByString := fun _ _ => JsUndefined;
     getIntByBooleanString := fun v =>
       if decide (v = Some (js "true")) then JsNumber 1 else JsNumber 0;
     getEvseRelationByEvseData := fun _ _ _ _ => [];
     getChargingFacilitiesByEvseData := fun _ _ => [] |}.

Definition no_address : IAddress.t :=
  {| IAddress.Country := None; IAddress.City := None;
     IAddress.Street := None; IAddress.PostalCode := None;
     IAddress.HouseNum := None; IAddress.Floor := None;
     IAddress.Region := None; IAddress.TimeZone := None |}.

(** A station record with the fields that the reconciliation reads. *)
Definition station (evseId : jsstring) (operatorId : option jsstring)
    (name enName enInfo : option jsstring) : IEvseDataRecord.t :=
  {| IEvseDataRecord.attributes_lastUpdate := None;
     IEvseDataRecord.EvseId := evseId;
     IEvseDataRecord.OperatorId := operatorId;
     IEvseDataRecord.ChargingStationId := None;
     IEvseDataRecord.ChargingStationName := name;
     IEvseDataRecord.EnChargingStationName := enName;
     IEvseDataRecord.Address := no_address;
     IEvseDataRecord.GeoCoordinates := JsUndefined;
     IEvseDataRecord.GeoChargingPointEntrance := JsUndefined;
     IEvseDataRecord.Plugs := JsUndefined;
     IEvseDataRecord.ChargingFacilities := JsUndefined;
     IEvseDataRecord.ChargingModes := JsUndefined;
     IEvseDataRecord.AuthenticationModes := JsUndefined;
     IEvseDataRecord.PaymentOptions := JsUndefined;
     IEvseDataRecord.ValueAddedServices := JsUndefined;
     IEvseDataRecord.MaxCapacity := None;
     IEvseDataRecord.Accessibility := None;
     IEvseDataRecord.HotlinePhoneNum := None;
     IEvseDataRecord.AdditionalInfo := None;
     IEvseDataRecord.EnAdditionalInfo := enInfo;
     IEvseDataRecord.IsOpen24Hours := None;
     IEvseDataRecord.OpeningTime := None;
     IEvseDataRecord.HubOperatorID := None;
     IEvseDataRecord.ClearinghouseID := None;
     IEvseDataRecord.IsHubjectCompatible := None;
     IEvseDataRecord.DynamicInfoAvailable := None |}.

Definition tr_row (evseId : jsstring) (languageCode : jsstring)
    (name info : option jsstring) : IEVSE_tr.t :=
  {| IEVSE_tr.evseId := evseId;
     IEVSE_tr.chargingStationName := name;
     IEVSE_tr.languageCode := languageCode;
     IEVSE_tr.additionalInfo := info |}.

(** A station whose packed field has two segments for the same country. *)
Definition station_with_repeated_code : IEvseDataRecord.t :=
  station (js "DE*TBA*E1234") (Some (js "DE*TBA"))
    (Some (js "StationName-DE")) None (Some (js "DEU:a|||DEU:b|||")).

(** A batch of three stations: one with a German and a French segment and
    both names, one with an English segment only, one without packed
    field. *)
Definition sample_stations : list IEvseDataRecord.t :=
  [station (js "DE*TBA*E1234") (Some (js "DE*TBA"))
     (Some (js "StationName-DE")) (Some (js "StationName-EN"))
     (Some (js "DEU:Inhalt|||FRA:Objet|||"));
   station (js "DE*TBB*E5678") (Some (js "DE*TBA"))
     None None (Some (js "GBR: Content |||"));
   station (js "+49*123*E1") (Some (js "+49*123"))
     (Some (js "StationName-DE")) None None].

(** The two stations of operator "DE*TBA" of the specification: one of a
    sub-operator, one of the operator itself; and a station whose
    identifier has no operator id in it. *)
Definition station_of_sub_operator : IEvseDataRecord.t :=
  station (js "DE*TBB*E5678") (Some (js "DE*TBA")) None None None.

Definition station_of_operator : IEvseDataRecord.t :=
  station (js "DE*TBA*E1234") (Some (js "DE*TBA")) None None None.

Definition station_with_malformed_id : IEvseDataRecord.t :=
  station (js "E1234") (Some (js "DE*TBA")) None None None.

(** A feed of one operator with a station of its own and a station of a
    sub-operator. *)
Definition sample_feed : list IOperatorEvseData.t :=
  [{| IOperatorEvseData.OperatorID := js "DE*TBA";
      IOperatorEvseData.OperatorName := js "Operator A";
      IOperatorEvseData.EvseDataRecord :=
        Many [station (js "DE*TBB*E5678") None
                (Some (js "StationName-DE")) (Some (js "StationName-EN"))
                (Some (js "DEU:Inhalt|||GBR:Content|||FRA:Objet|||"));
              station (js "DE*TBA*E1234") None
                (Some (js "StationName-DE")) None None] |}].

(** A store that holds the rows of an earlier run: one operator and one
    station. *)
Definition sample_tables : Tables :=
  {| tbl_Operator :=
       upsert IOperator.id
         [{| IOperator.id := js "DE*OLD"; IOperator.name := None;
             IOperator.parentId := None |}] ∅;
     tbl_EVSE :=
       upsert IEVSE.id
         (mapEvseDataToEvses sample_helper []
            [station (js "DE*OLD*E1") (Some (js "DE*OLD")) None None None]) ∅;
     tbl_EVSE_tr := ∅;
     tbl_join := fun _ => ∅;
     tbl_catalog := fun _ => [] |}.

Definition sample_world : World :=
  {| committed := sample_tables; pending := None; issued := 0%nat;
     caches := fun _ => None |}.

(** Fault plans: no query fails; the query sent as number [k] fails. *)
Definition no_fault : nat -> bool := fun _ => false.
Definition fault_at (k : nat) : nat -> bool := fun n => Nat.eqb n k.

(** A station of an operator with a numeric id, listed under it. *)
Definition station_of_numeric_operator : IEvseDataRecord.t :=
  station (js "+49*123*E77") (Some (js "+49*123")) None None None.

(** The sample store with all catalogs cached by the importer. *)
Definition loaded_world : World :=
  set_caches (fun _ => Some []) sample_world.

(** A lookup that answers German for every country code. *)
Definition german_helper : DataImportHelper :=
  {| getLanguageCodeByISO3166Alpha3 := fun _ => Fulfilled (js "de");
     getArrayByValue_Array := getArrayByValue_Array sample_helper;
     getLongitudeByEvseDataRecord :=
       getLongitudeByEvseDataRecord sample_helper;
     getLatitudeByEvseDataRecord :=
       getLatitudeByEvseDataRecord sample_helper;
     getEnumIdByString := getEnumIdByString sample_helper;
     getIntByBooleanString := getIntByBooleanString sample_helper;
     getEvseRelationByEvseData := getEvseRelationByEvseData sample_helper;
     getChargingFacilitiesByEvseData :=
       getChargingFacilitiesByEvseData sample_helper |}.

(** A station whose packed field has a segment for Germany and one for
    Austria. *)
Definition station_of_two_countries : IEvseDataRecord.t :=
  station (js "DE*TBA*E1234") (Some (js "DE*TBA"))
    None None (Some (js "DEU:a|||AUT:b|||")).

(** A helper that resolves the options of a station against the catalog
    it is given: one row for each option that is the name of an entry of
    the catalog, with the id of that entry. *)
Definition option_names (options : JsValue) : list JsValue :=
  match options with
  | JsArray l => l
  | JsUndefined => []
  | v => [v]
  end.

Definition named (option : JsValue) (model : JsValue) : bool :=
  match get_prop (js "name") model, option with
  | JsString a, JsString b => bool_decide (a = b)
  | _, _ => false
  end.

Definition enum_id (model : JsValue) : Z :=
  match get_prop (js "id") model with
  | JsNumber z => z
  | _ => 0%Z
  end.

Definition resolve_options (catalog : list JsValue) (evseId : jsstring)
    (options : JsValue) : list IEVSERelation.t :=
  option_names options ≫= fun option =>
    (fun model => {| IEVSERelation.evseId := evseId;
                     IEVSERelation.enumId := enum_id model |}) <$>
      List.filter (named option) catalog.

Definition catalog_helper : DataImportHelper :=
  {| getLanguageCodeByISO3166Alpha3 :=
       getLanguageCodeByISO3166Alpha3 sample_helper;
     getArrayByValue_Array := getArrayByValue_Array sample_helper;
     getLongitudeByEvseDataRecord :=
       getLongitudeByEvseDataRecord sample_helper;
     getLatitudeByEvseDataRecord :=
       getLatitudeByEvseDataRecord sample_helper;
     getEnumIdByString := getEnumIdByString sample_helper;
     getIntByBooleanString := getIntByBooleanString sample_helper;
     getEvseRelationByEvseData := fun evseData catalog _ options =>
       evseData ≫= fun d =>
         resolve_options catalog (IEvseDataRecord.EvseId d) (options d);
     getChargingFacilitiesByEvseData := fun evseData catalog =>
       evseData ≫= fun d =>
         resolve_options catalog (IEvseDataRecord.EvseId d)
           (IEvseDataRecord.ChargingFacilities d) |}.

(** A station with a plug that the sample catalog does not list. *)
Definition station_with_unknown_plug : IEvseDataRecord.t :=
  {| IEvseDataRecord.attributes_lastUpdate := None;
     IEvseDataRecord.EvseId := js "DE*TBA*E1234";
     IEvseDataRecord.OperatorId := Some (js "DE*TBA");
     IEvseDataRecord.ChargingStationId := None;
     IEvseDataRecord.ChargingStationName := None;
     IEvseDataRecord.EnChargingStationName := None;
     IEvseDataRecord.Address := no_address;
     IEvseDataRecord.GeoCoordinates := JsUndefined;
     IEvseDataRecord.GeoChargingPointEntrance := JsUndefined;
     IEvseDataRecord.Plugs :=
       JsObject [(js "Plug", JsArray [JsString (js "CCS")])];
     IEvseDataRecord.ChargingFacilities := JsUndefined;
     IEvseDataRecord.ChargingModes := JsUndefined;
     IEvseDataRecord.AuthenticationModes := JsUndefined;
     IEvseDataRecord.PaymentOptions := JsUndefined;
     IEvseDataRecord.ValueAddedServices := JsUndefined;
     IEvseDataRecord.MaxCapacity := None;
     IEvseDataRecord.Accessibility := None;
     IEvseDataRecord.HotlinePhoneNum := None;
     IEvseDataRecord.AdditionalInfo := None;
     IEvseDataRecord.EnAdditionalInfo := None;
     IEvseDataRecord.IsOpen24Hours := None;
     IEvseDataRecord.OpeningTime := None;
     IEvseDataRecord.HubOperatorID := None;
     IEvseDataRecord.ClearinghouseID := None;
     IEvseDataRecord.IsHubjectCompatible := None;
     IEvseDataRecord.DynamicInfoAvailable := None |}.

(** The sample store with one entry in each cached catalog. *)
Definition catalog_world : World :=
  set_caches
    (fun _ => Some [JsObject [(js "id", JsNumber 1);
                              (js "name", JsString (js "Type 2"))]])
    sample_world.

(** A feed with a station whose identifier has no operator id in it. *)
Definition malformed_feed : list IOperatorEvseData.t :=
  [{| IOperatorEvseData.OperatorID := js "DE*TBA";
      IOperatorEvseData.OperatorName := js "Operator A";
      IOperatorEvseData.EvseDataRecord :=
        Many [station (js "DE*TBA*E1234") None None None None;
              station (js "E1234") None None None None] |}].

(** * Properties *)

(** ** The regular expressions *)

Lemma lit_Some c s r : lit c s = Some r ↔ s = c :: r.
Proof.
  destruct s as [|c' s']; simpl; [naive_solver|].
  destruct (N.eqb_spec c c'); naive_solver.
Qed.

Lemma lits_Some l s r : lits l s = Some r ↔ s = l ++ r.
Proof.
  revert s. induction l as [|c l IH]; intros s; simpl; [naive_solver|].
  destruct (lit c s) as [s1|] eqn:E; simpl.
  - apply lit_Some in E as ->. rewrite IH.
    split; [by intros ->|by intros [= ->]].
  - split; [done|]. intros ->. simpl in E.
    rewrite N.eqb_refl in E. done.
Qed.

Lemma class_n_Some p n s r :
  class_n p n s = Some r →
  ∃ pre, s = pre ++ r ∧ length pre = n ∧ Forall (fun c => p c = true) pre.
Proof.
  revert s. induction n as [|n IH]; intros s; simpl.
  - intros [= ->]. by exists [].
  - destruct s as [|c s']; [done|].
    destruct (p c) eqn:Hc; [|done].
    intros H. apply IH in H as (pre & -> & <- & Hpre).
    exists (c :: pre). split_and!; [done|done|by constructor].
Qed.

Lemma delimiter_Some s r : delimiter s = Some r ↔ s = DELIMITER ++ r.
Proof.
  unfold delimiter, DELIMITER.
  destruct (lit PIPE s) as [s1|] eqn:E1; simpl.
  - apply lit_Some in E1 as ->.
    destruct (lit PIPE s1) as [s2|] eqn:E2; simpl.
    + apply lit_Some in E2 as ->. rewrite lit_Some. naive_solver.
    + split; [done|]. intros [= ->]. done.
  - split; [done|]. intros ->. done.
Qed.

Lemma lazy_dots_delimiter_Some s cap rest :
  lazy_dots_delimiter s = Some (cap, rest) →
  s = cap ++ DELIMITER ++ rest ∧
  Forall (fun c => is_line_terminator c = false) cap.
Proof.
  revert cap. induction s as [|c s IH]; intros cap; simpl.
  - destruct (delimiter []) eqn:E; [|done].
    apply delimiter_Some in E. done.
  - destruct (delimiter (c :: s)) as [r|] eqn:E.
    + intros [= <- <-]. apply delimiter_Some in E. done.
    + destruct (is_line_terminator c) eqn:Hc; [done|].
      destruct (lazy_dots_delimiter s) as [[cap' rest']|]; [|done].
      simpl. intros [= <- <-].
      destruct (IH cap' eq_refl) as [-> Hcap].
      split; [done|by constructor].
Qed.

Lemma greedy_dots_delimiter_cons c s :
  greedy_dots_delimiter (c :: s) =
  (negb (is_line_terminator c) && greedy_dots_delimiter s)
  || bool_decide (is_Some (delimiter (c :: s))).
Proof. done. Qed.

Lemma greedy_dots_delimiter_intro cap rest :
  Forall (fun c => is_line_terminator c = false) cap →
  greedy_dots_delimiter (cap ++ DELIMITER ++ rest) = true.
Proof.
  induction 1 as [|c cap Hc _ IH].
  - change ([] ++ DELIMITER ++ rest) with (PIPE :: [PIPE; PIPE] ++ rest).
    rewrite greedy_dots_delimiter_cons, bool_decide_eq_true_2.
    + apply orb_true_r.
    + exists rest. by apply delimiter_Some.
  - change ((c :: cap) ++ DELIMITER ++ rest)
      with (c :: cap ++ DELIMITER ++ rest).
    by rewrite greedy_dots_delimiter_cons, Hc, IH.
Qed.

Lemma localized_info_here_Some s g1 g2 rest :
  localized_info_here s = Some (g1, g2, rest) →
  s = g1 ++ COLON :: g2 ++ DELIMITER ++ rest ∧
  alpha3_code g1 ∧
  Forall (fun c => is_line_terminator c = false) g2.
Proof.
  unfold localized_info_here.
  destruct (class_n is_upper 3 s) as [s1|] eqn:E1; [|done]. simpl.
  destruct (lit COLON s1) as [s2|] eqn:E2; [|done]. simpl.
  destruct (lazy_dots_delimiter s2) as [[cap r]|] eqn:E3; [|done]. simpl.
  intros [= <- <- <-].
  apply class_n_Some in E1 as (pre & -> & Hlen & Hup).
  apply lit_Some in E2 as ->.
  apply lazy_dots_delimiter_Some in E3 as [-> Hcap].
  rewrite take_app_length' by done.
  by split_and!.
Qed.

Lemma localized_info_search_Some s pos m :
  localized_info_search s pos = Some m →
  ∃ pre rest,
    s = pre ++ group1 m ++ COLON :: group2 m ++ DELIMITER ++ rest ∧
    match_end m = (pos + (length s - length rest))%nat ∧
    alpha3_code (group1 m) ∧
    Forall (fun c => is_line_terminator c = false) (group2 m).
Proof.
  revert pos. induction s as [|c s IH]; intros pos; simpl.
  - destruct (localized_info_here []) as [[[g1 g2] r]|] eqn:E; [|done].
    apply localized_info_here_Some in E as (E & _). by destruct g1.
  - destruct (localized_info_here (c :: s)) as [[[g1 g2] r]|] eqn:E.
    + intros [= <-]. simpl.
      apply localized_info_here_Some in E as (E & Hg1 & Hg2).
      exists [], r. by split_and!.
    + intros (pre & rest & -> & Hend & Hg1 & Hg2)%IH.
      exists (c :: pre), rest. split_and!; [done| |done|done].
      rewrite Hend. repeat (rewrite ?length_app; simpl). lia.
Qed.

Lemma anchor_regex_test_here a s :
  anchor_here a s = true → anchor_regex_test a s = true.
Proof. intros H. destruct s; simpl; by rewrite H. Qed.

Lemma anchor_regex_test_cons a c s :
  anchor_regex_test a (c :: s) =
  anchor_here a (c :: s) || anchor_regex_test a s.
Proof. done. Qed.

Lemma anchor_regex_test_intro a pre cap rest :
  Forall (fun c => is_line_terminator c = false) cap →
  anchor_regex_test a (pre ++ a ++ COLON :: cap ++ DELIMITER ++ rest) = true.
Proof.
  intros Hcap. induction pre as [|c pre IH].
  - apply anchor_regex_test_here. unfold anchor_here.
    rewrite (proj2 (lits_Some a _ (COLON :: cap ++ DELIMITER ++ rest)))
      by done.
    simpl. by apply greedy_dots_delimiter_intro.
  - rewrite <- app_comm_cons, anchor_regex_test_cons, IH.
    apply orb_true_r.
Qed.

Lemma LOCALIZED_INFO_REGEX_exec_Some re s m re' :
  LOCALIZED_INFO_REGEX_exec re s = (Some m, re') →
  lastIndex re' = match_end m ∧
  (lastIndex re < match_end m ≤ length s)%nat ∧
  (∃ pre rest, s = pre ++ group1 m ++ COLON :: group2 m ++ DELIMITER ++ rest) ∧
  alpha3_code (group1 m) ∧
  Forall (fun c => is_line_terminator c = false) (group2 m).
Proof.
  unfold LOCALIZED_INFO_REGEX_exec.
  destruct (decide _) as [Hle|]; [|done].
  destruct (localized_info_search _ _) as [m'|] eqn:E; [|done].
  intros [= -> <-]. simpl.
  apply localized_info_search_Some in E
    as (pre & rest & Hs & Hend & Hg1 & Hg2).
  assert (length (drop (lastIndex re) s) = length s - lastIndex re)%nat
    as Hlen by apply length_drop.
  pose proof (f_equal length Hs) as Hl.
  rewrite Hlen in Hl. repeat (rewrite ?length_app in Hl; simpl in Hl).
  rewrite Hlen in Hend.
  split_and!; [done|lia|lia| |done|done].
  exists (take (lastIndex re) s ++ pre), rest.
  rewrite <- (take_drop (lastIndex re) s) at 1. rewrite Hs.
  by rewrite <- (assoc_L (++)).
Qed.

Lemma LOCALIZED_INFO_REGEX_exec_None re s re' :
  LOCALIZED_INFO_REGEX_exec re s = (None, re') → re' = new_RegExp.
Proof.
  unfold LOCALIZED_INFO_REGEX_exec.
  destruct (decide _); [|by intros [= <-]].
  destruct (localized_info_search _ _); [done|by intros [= <-]].
Qed.

(** ** Localization extraction *)

Section ExtractionFacts.
Variable h : DataImportHelper.

Lemma getEvseTr_Fulfilled alpha3 evseId chargingStationName additionalInfo :
  getEvseTr h alpha3 evseId chargingStationName additionalInfo =
  Fulfilled (evseTr h alpha3 evseId chargingStationName additionalInfo).
Proof.
  unfold getEvseTr, evseTr, languageCodeOf.
  by destruct (getLanguageCodeByISO3166Alpha3 h alpha3).
Qed.

Lemma Promise_all_Fulfilled {A} (rows : list A) :
  Promise_all (Fulfilled <$> rows) = Fulfilled rows.
Proof. induction rows as [|r rows IH]; csimpl; [done|by rewrite IH]. Qed.

(** The loop ends by a failed [exec], which leaves [lastIndex] at 0, and
    appends the rows of the segments from [lastIndex] on. *)
Lemma while_match_segments fuel d info re ps :
  (length info - lastIndex re < fuel)%nat →
  while_match h fuel d info (re, ps) =
  Some (new_RegExp,
        ps ++ (Fulfilled <$> (segment_row h d <$> segments_from fuel re info))).
Proof.
  revert re ps. induction fuel as [|fuel IH]; intros re ps Hfuel; [lia|].
  simpl.
  destruct (LOCALIZED_INFO_REGEX_exec re info) as [[m|] re'] eqn:E.
  - apply LOCALIZED_INFO_REGEX_exec_Some in E as (Hre' & Hend & _).
    rewrite IH by lia.
    rewrite getEvseTr_Fulfilled.
    by rewrite <- (assoc_L (++)).
  - apply LOCALIZED_INFO_REGEX_exec_None in E as ->.
    csimpl. by rewrite (right_id_L [] (++)).
Qed.

(** More fuel than the length of the field finds no further segment. *)
Lemma segments_from_fuel fuel fuel' re info :
  (length info - lastIndex re < fuel)%nat →
  (length info - lastIndex re < fuel')%nat →
  segments_from fuel re info = segments_from fuel' re info.
Proof.
  revert fuel' re. induction fuel as [|fuel IH]; intros fuel' re H H';
    [lia|].
  destruct fuel' as [|fuel']; [lia|]. simpl.
  destruct (LOCALIZED_INFO_REGEX_exec re info) as [[m|] re'] eqn:E; [|done].
  apply LOCALIZED_INFO_REGEX_exec_Some in E as (Hre' & Hend & _).
  f_equal. apply IH; lia.
Qed.

Lemma getInternationalData_body_rows d ps :
  getInternationalData_body h (new_RegExp, ps) d =
  Some (new_RegExp, ps ++ (Fulfilled <$> station_rows h d)).
Proof.
  unfold getInternationalData_body, station_rows.
  destruct (truthy (IEvseDataRecord.EnAdditionalInfo d)); cbn [negb].
  - set (info := default [] (IEvseDataRecord.EnAdditionalInfo d)).
    rewrite while_match_segments by (simpl; lia).
    unfold backfill_rows, segments.
    generalize (segment_row h d <$>
                  segments_from (S (length info)) new_RegExp info).
    intros rows. rewrite !getEvseTr_Fulfilled. csimpl.
    repeat case_match; csimpl;
      rewrite ?fmap_app, <- ?(assoc_L (++)); csimpl;
      rewrite ?(right_id_L [] (++)); done.
  - csimpl. by rewrite (right_id_L [] (++)).
Qed.

Lemma forEach_getInternationalData_body l ps :
  forEach (getInternationalData_body h) l (new_RegExp, ps) =
  Some (new_RegExp, ps ++ (Fulfilled <$> (l ≫= station_rows h))).
Proof.
  revert ps. induction l as [|d l IH]; intros ps; simpl.
  - by rewrite (right_id_L [] (++)).
  - rewrite getInternationalData_body_rows. simpl. rewrite IH.
    by rewrite fmap_app, (assoc_L (++)).
Qed.

(** The extraction always settles, fulfilled with the rows of the
    stations in the order of the list. *)
Lemma getInternationalData_rows l :
  getInternationalData h l = Some (Fulfilled (l ≫= station_rows h)).
Proof.
  unfold getInternationalData.
  rewrite forEach_getInternationalData_body. simpl.
  by rewrite Promise_all_Fulfilled.
Qed.

Lemma extracted_rows l : extracted h l = l ≫= station_rows h.
Proof. unfold extracted. by rewrite getInternationalData_rows. Qed.

End ExtractionFacts.

(** C1: a station whose packed field is
    "DEU:Inhalt|||GBR:Content|||FRA:Objet|||", whose primary name is
    "StationName-DE" and whose English name is "StationName-EN" gets
    exactly three translation rows, wherever it stands in the list: the row
    of DEU with the primary name, the row of GBR with the English name and
    the row of FRA without a name, each with the trimmed text of its
    segment as additional info. *)
Theorem C1_three_translation_rows (h : DataImportHelper)
    (l1 l2 : list IEvseDataRecord.t) (d : IEvseDataRecord.t) :
  IEvseDataRecord.EnAdditionalInfo d =
    Some (js "DEU:Inhalt|||GBR:Content|||FRA:Objet|||") →
  IEvseDataRecord.ChargingStationName d = Some (js "StationName-DE") →
  IEvseDataRecord.EnChargingStationName d = Some (js "StationName-EN") →
  getInternationalData h (l1 ++ d :: l2) =
  Some (Fulfilled
    (extracted h l1 ++
     [tr_row (IEvseDataRecord.EvseId d) (languageCodeOf h (js "DEU"))
        (Some (js "StationName-DE")) (Some (js "Inhalt"));
      tr_row (IEvseDataRecord.EvseId d) (languageCodeOf h (js "GBR"))
        (Some (js "StationName-EN")) (Some (js "Content"));
      tr_row (IEvseDataRecord.EvseId d) (languageCodeOf h (js "FRA"))
        None (Some (js "Objet"))] ++
     extracted h l2)).
Proof.
  intros Hinfo Hname HenName.
  rewrite getInternationalData_rows, !extracted_rows, bind_app, bind_cons.
  do 3 f_equal. apply (f_equal (fun rows => rows ++ l2 ≫= station_rows h)).
  destruct d; cbn [IEvseDataRecord.EnAdditionalInfo
    IEvseDataRecord.ChargingStationName
    IEvseDataRecord.EnChargingStationName] in *; subst.
  vm_compute. reflexivity.
Qed.

Lemma C1_three_translation_rows_witness :
  getInternationalData sample_helper
    ([] ++ station (js "DE*TBA*E1234") (Some (js "DE*TBA"))
             (Some (js "StationName-DE")) (Some (js "StationName-EN"))
             (Some (js "DEU:Inhalt|||GBR:Content|||FRA:Objet|||")) :: []) =
  Some (Fulfilled
    (extracted sample_helper [] ++
     [tr_row (js "DE*TBA*E1234") (js "de")
        (Some (js "StationName-DE")) (Some (js "Inhalt"));
      tr_row (js "DE*TBA*E1234") (js "en")
        (Some (js "StationName-EN")) (Some (js "Content"));
      tr_row (js "DE*TBA*E1234") (js "FRA")
        None (Some (js "Objet"))] ++
     extracted sample_helper [])).
Proof.
  apply (C1_three_translation_rows sample_helper [] []
           (station (js "DE*TBA*E1234") (Some (js "DE*TBA"))
              (Some (js "StationName-DE")) (Some (js "StationName-EN"))
              (Some (js "DEU:Inhalt|||GBR:Content|||FRA:Objet|||"))));
    reflexivity.
Defined.

(** C2: for a station without packed field the extraction returns at the
    start of the loop body: the station gets no row at all, also no
    backfill row, although both of its names are non-blank. *)
Theorem C2_no_backfill_without_packed_field :
  let d := station (js "DE*TBA*E1234") (Some (js "DE*TBA"))
             (Some (js "StationName-DE")) (Some (js "StationName-EN")) None in
  non_blank (IEvseDataRecord.ChargingStationName d) = true ∧
  non_blank (IEvseDataRecord.EnChargingStationName d) = true ∧
  getInternationalData sample_helper [d] = Some (Fulfilled []).
Proof. vm_compute. done. Qed.

(** C5: the extraction is a function of the station list and leaves no
    state behind. It always settles with rows; the scan of the list ends
    with the RegExp object in the state it was created in, so that a
    second scan of the same list, even with the object that the first scan
    left, builds the same promises; and the rows of a list followed by
    further stations are the rows of the list followed by the rows of those
    stations. *)
Theorem C5_extraction_is_stateless (h : DataImportHelper)
    (l l' : list IEvseDataRecord.t) :
  ∃ re ps rows rows',
    forEach (getInternationalData_body h) l (new_RegExp, []) = Some (re, ps) ∧
    Promise_all ps = Fulfilled rows ∧
    getInternationalData h l = Some (Fulfilled rows) ∧
    forEach (getInternationalData_body h) l (re, []) = Some (re, ps) ∧
    getInternationalData h l' = Some (Fulfilled rows') ∧
    getInternationalData h (l ++ l') = Some (Fulfilled (rows ++ rows')).
Proof.
  exists new_RegExp, (Fulfilled <$> (l ≫= station_rows h)),
    (l ≫= station_rows h), (l' ≫= station_rows h).
  rewrite !getInternationalData_rows, forEach_getInternationalData_body,
    Promise_all_Fulfilled, bind_app.
  done.
Qed.

(** C7: when the lookup of a country code fails, the row is still built,
    with the country code as its language code; the extraction is always
    fulfilled, and the translation step of a run does just the one write
    of the extracted rows. *)
Theorem C7_lookup_failure_falls_back (h : DataImportHelper)
    (alpha3 evseId : jsstring) (chargingStationName additionalInfo : option jsstring)
    (e : Error) :
  getLanguageCodeByISO3166Alpha3 h alpha3 = Rejected e →
  getEvseTr h alpha3 evseId chargingStationName additionalInfo =
    Fulfilled {| IEVSE_tr.evseId := evseId;
                 IEVSE_tr.chargingStationName := chargingStationName;
                 IEVSE_tr.languageCode := alpha3;
                 IEVSE_tr.additionalInfo := additionalInfo |} ∧
  (∀ l, ∃ rows, getInternationalData h l = Some (Fulfilled rows)) ∧
  (∀ query_fails l trx w,
     processInternationalData h query_fails l trx w =
     insertOrUpdate_EVSE_tr query_fails trx (extracted h l) w).
Proof.
  intros Hfail. split_and!.
  - unfold getEvseTr. by rewrite Hfail.
  - intros l. eexists. apply getInternationalData_rows.
  - intros query_fails l trx w. unfold processInternationalData, extracted.
    by rewrite getInternationalData_rows.
Qed.

Lemma C7_lookup_failure_falls_back_witness :
  getEvseTr sample_helper (js "FRA") (js "DE*TBA*E1234") None
    (Some (js "Objet")) =
    Fulfilled (tr_row (js "DE*TBA*E1234") (js "FRA") None (Some (js "Objet"))) ∧
  (∀ l, ∃ rows, getInternationalData sample_helper l = Some (Fulfilled rows)) ∧
  (∀ query_fails l trx w,
     processInternationalData sample_helper query_fails l trx w =
     insertOrUpdate_EVSE_tr query_fails trx (extracted sample_helper l) w).
Proof.
  apply (C7_lookup_failure_falls_back sample_helper (js "FRA")
           (js "DE*TBA*E1234") None (Some (js "Objet")) LookupFailure).
  reflexivity.
Defined.

(** ** Uniqueness of the translation rows *)

Section UniquenessFacts.
Variable h : DataImportHelper.

(** Every segment found by the scan is found by the anchor regex of its
    code as well. *)
Lemma segments_from_anchor fuel re info m :
  m ∈ segments_from fuel re info →
  alpha3_code (group1 m) ∧ anchor_regex_test (group1 m) info = true.
Proof.
  revert re. induction fuel as [|fuel IH]; intros re; simpl.
  - by intros ?%elem_of_nil.
  - destruct (LOCALIZED_INFO_REGEX_exec re info) as [[m'|] re'] eqn:E;
      [|by intros ?%elem_of_nil].
    intros [->|Hin]%elem_of_cons; [|by eapply IH].
    apply LOCALIZED_INFO_REGEX_exec_Some in E
      as (_ & _ & (pre & rest & ->) & Hcode & Hcap).
    split; [done|]. by apply anchor_regex_test_intro.
Qed.

Lemma backfill_codes_elem a name info x :
  x ∈ backfill_codes a name info →
  x = a ∧ anchor_regex_test a info = false.
Proof.
  unfold backfill_codes.
  destruct (anchor_regex_test a info); simpl; [by intros ?%elem_of_nil|].
  destruct (non_blank name); [|by intros ?%elem_of_nil].
  by intros ->%list_elem_of_singleton.
Qed.

Lemma anchor_codes_alpha3 :
  alpha3_code EN_CHARGING_STATION_NAME_ALPHA_3 ∧
  alpha3_code CHARGING_STATION_NAME_ALPHA_3.
Proof. split; (split; [done|by repeat constructor]). Qed.

Lemma station_codes_alpha3 d a : a ∈ station_codes d → alpha3_code a.
Proof.
  unfold station_codes. destruct (truthy _); [|by intros ?%elem_of_nil].
  rewrite !elem_of_app.
  intros [(m & -> & Hm)%list_elem_of_fmap
         |[[-> _]%backfill_codes_elem|[-> _]%backfill_codes_elem]].
  - by eapply segments_from_anchor.
  - apply anchor_codes_alpha3.
  - apply anchor_codes_alpha3.
Qed.

Lemma station_codes_NoDup d :
  (∀ info, IEvseDataRecord.EnAdditionalInfo d = Some info →
           NoDup (group1 <$> segments info)) →
  NoDup (station_codes d).
Proof.
  intros Hsegs. unfold station_codes.
  destruct (IEvseDataRecord.EnAdditionalInfo d) as [info|] eqn:Hinfo;
    [|constructor].
  destruct (truthy (Some info)); [|constructor]. simpl.
  apply list.NoDup_app. split_and!.
  - by apply Hsegs.
  - intros x (m & -> & Hm)%list_elem_of_fmap.
    apply segments_from_anchor in Hm as [_ Htest].
    rewrite elem_of_app.
    intros [[E Hno]%backfill_codes_elem|[E Hno]%backfill_codes_elem];
      rewrite E in Htest; congruence.
  - apply list.NoDup_app. split_and!.
    + unfold backfill_codes. case_match; [apply NoDup_singleton|constructor].
    + intros x [-> _]%backfill_codes_elem [E _]%backfill_codes_elem.
      done.
    + unfold backfill_codes. case_match; [apply NoDup_singleton|constructor].
Qed.

Lemma station_rows_keys d :
  row_key <$> station_rows h d =
  (fun a => (IEvseDataRecord.EvseId d, languageCodeOf h a)) <$>
    station_codes d.
Proof.
  unfold station_rows, station_codes, backfill_rows, backfill_codes.
  destruct (truthy _); [|done]. simpl.
  rewrite !fmap_app, <- !list_fmap_compose.
  by repeat case_match.
Qed.

Lemma station_rows_evseId d r :
  r ∈ station_rows h d → IEVSE_tr.evseId r = IEvseDataRecord.EvseId d.
Proof.
  intros Hr. apply (list_elem_of_fmap_2 row_key) in Hr.
  rewrite station_rows_keys in Hr.
  apply list_elem_of_fmap in Hr as (a & Hkey & _).
  by injection Hkey.
Qed.

End UniquenessFacts.

(** C6, as stated: uniqueness fails for a station whose packed field has
    two segments for the same country. *)
Lemma C6_repeated_code_counterexample :
  ¬ unique_per_station_language
      (extracted sample_helper [station_with_repeated_code]).
Proof.
  unfold unique_per_station_language. vm_compute.
  intros Hnodup. apply list.NoDup_cons in Hnodup as [Hnotin _].
  apply Hnotin. left.
Qed.

(** C6, amended: when the station ids of the list are pairwise distinct,
    no packed field has two segments with the same country code, and, for
    each station, the mapping from country codes to language codes (with
    its fallback) sends different country codes of the rows of that
    station to different language codes, the rows are unique per station
    id and language code. Nothing is asked of the mapping on codes that
    do not meet in one station. *)
Theorem C6_rows_unique_per_station_language (h : DataImportHelper)
    (l : list IEvseDataRecord.t) :
  NoDup (IEvseDataRecord.EvseId <$> l) →
  (∀ d info, d ∈ l → IEvseDataRecord.EnAdditionalInfo d = Some info →
             NoDup (group1 <$> segments info)) →
  (∀ d a b, d ∈ l → a ∈ station_codes d → b ∈ station_codes d →
            languageCodeOf h a = languageCodeOf h b → a = b) →
  unique_per_station_language (extracted h l).
Proof.
  intros Hids Hsegs Hinj. unfold unique_per_station_language.
  rewrite extracted_rows.
  induction l as [|d l IH]; [constructor|].
  rewrite bind_cons, fmap_app. csimpl in Hids.
  apply list.NoDup_cons in Hids as [Hd Hids].
  apply list.NoDup_app. split_and!.
  - rewrite station_rows_keys. apply NoDup_fmap_2_strong.
    + intros a b Ha Hb [= Hab]. apply (Hinj d); [left|done..].
    + apply station_codes_NoDup. intros info. apply Hsegs. left.
  - intros k (r & -> & Hr)%list_elem_of_fmap
             (r' & Hkey & (d' & Hr' & Hd')%list_elem_of_bind)%list_elem_of_fmap.
    apply station_rows_evseId in Hr, Hr'.
    apply Hd. apply list_elem_of_fmap. exists d'. split; [|done].
    injection Hkey as Hid _. congruence.
  - apply IH; [done| |].
    + intros d' info Hd'. apply Hsegs. by right.
    + intros d' a b Hd'. apply Hinj. by right.
Qed.

Lemma sample_helper_languages_distinct a b :
  alpha3_code a → alpha3_code b →
  languageCodeOf sample_helper a = languageCodeOf sample_helper b → a = b.
Proof.
  intros [Ha _] [Hb _]. unfold languageCodeOf. simpl.
  repeat case_decide; subst; try done; intros Heq; vm_compute in Heq;
    subst; done.
Qed.

Lemma C6_rows_unique_per_station_language_witness :
  unique_per_station_language (extracted sample_helper sample_stations).
Proof.
  apply (C6_rows_unique_per_station_language sample_helper sample_stations).
  - apply (bool_decide_unpack _). vm_compute. reflexivity.
  - intros d info Hd Hinfo.
    unfold sample_stations in Hd.
    rewrite !elem_of_cons, elem_of_nil in Hd.
    destruct Hd as [->|[->|[->|[]]]]; simplify_eq/=;
      apply (bool_decide_unpack _); vm_compute; reflexivity.
  - intros d a b _ Ha%station_codes_alpha3 Hb%station_codes_alpha3.
    by apply sample_helper_languages_distinct.
Defined.

(** The other two conditions are needed as well: a station listed twice
    repeats its rows, and a lookup that sends two codes of one station to
    the same language repeats a key. *)
Lemma uniqueness_needs_distinct_stations_and_languages :
  ¬ unique_per_station_language
      (extracted sample_helper
         [station_of_two_countries; station_of_two_countries]) ∧
  ¬ unique_per_station_language
      (extracted german_helper [station_of_two_countries]).
Proof.
  unfold unique_per_station_language. split; vm_compute; intros Hnodup.
  - apply list.NoDup_cons in Hnodup as [Hnotin _].
    apply Hnotin. right. left.
  - apply list.NoDup_cons in Hnodup as [Hnotin _].
    apply Hnotin. left.
Qed.

(** ** Sub-operator resolution *)

Lemma subOperators_forEach_well_formed (l : list IEvseDataRecord.t)
    (subOperators : list IOperator.t) :
  Forall well_formed_id l →
  subOperators_forEach l subOperators =
  (spec_resolved_station <$> l,
   Normal (subOperators ++ (l ≫= spec_derived_operators))).
Proof.
  intros Hl. revert subOperators.
  induction Hl as [|d l [c Hc] _ IH]; intros subOperators.
  - csimpl. by rewrite (right_id_L [] (++)).
  - rewrite bind_cons, fmap_cons. cbn [subOperators_forEach].
    assert (candidate d = c) as Hcand by (unfold candidate; by rewrite Hc).
    unfold spec_resolved_station at 1, spec_derived_operators at 1.
    rewrite Hcand, Hc.
    destruct (decide (IEvseDataRecord.OperatorId d ≠ Some c)) as [Hne|Heq].
    + rewrite IH. rewrite !decide_False by done. cbn [fst snd].
      by rewrite <- (assoc_L (++)).
    + apply dec_stable in Heq. rewrite IH. rewrite !decide_True by done.
      done.
Qed.

(** The loop changes nothing but [OperatorId], whether it ends or
    throws. *)
Lemma subOperators_forEach_frame (l : list IEvseDataRecord.t)
    (subOperators : list IOperator.t) :
  Forall2
    (fun d d' =>
       d' = IEvseDataRecord.set_OperatorId (IEvseDataRecord.OperatorId d') d)
    l (subOperators_forEach l subOperators).1.
Proof.
  revert subOperators. induction l as [|d l IH]; intros subOperators.
  - constructor.
  - cbn [subOperators_forEach].
    assert (∀ l0, Forall2
      (fun d d' =>
         d' = IEvseDataRecord.set_OperatorId (IEvseDataRecord.OperatorId d') d)
      l0 l0) as Hrefl.
    { intros l0. apply Forall_Forall2_diag, Forall_forall.
      intros d0 _. by destruct d0. }
    destruct (OPERATOR_ID_REGEX_exec _) as [c|]; [|apply Hrefl].
    destruct (decide _); cbn [fst]; constructor; try apply IH.
    + done.
    + by destruct d.
Qed.

Lemma subOperators_forEach_malformed (l : list IEvseDataRecord.t)
    (subOperators : list IOperator.t) :
  Exists (fun d => OPERATOR_ID_REGEX_exec (IEvseDataRecord.EvseId d) = None) l →
  (subOperators_forEach l subOperators).2 = Throw TypeError.
Proof.
  intros Hl. revert subOperators.
  induction Hl as [d l Hd|d l _ IH]; intros subOperators;
    cbn [subOperators_forEach].
  - by rewrite Hd.
  - destruct (OPERATOR_ID_REGEX_exec _); [|done].
    destruct (decide _); apply IH.
Qed.

(** C10: the resolution keeps the length and the order of the station
    list, and each record differs from the one it was at most in
    [OperatorId], whether the loop ends or throws. *)
Theorem C10_resolution_changes_only_OperatorId (l : list IEvseDataRecord.t) :
  length (possibleSubOperators l).1 = length l ∧
  Forall2
    (fun d d' =>
       d' = IEvseDataRecord.set_OperatorId (IEvseDataRecord.OperatorId d') d)
    l (possibleSubOperators l).1.
Proof.
  pose proof (subOperators_forEach_frame l []) as Hframe.
  split; [|done]. symmetry. by eapply Forall2_length.
Qed.

(** ** Promises and queries *)

Lemma and_then_Fulfilled {A B} (p : Promise A) (f : A → Promise B) w b w' :
  and_then p f w = Some (Fulfilled b, w') ↔
  ∃ a w1, p w = Some (Fulfilled a, w1) ∧ f a w1 = Some (Fulfilled b, w').
Proof.
  unfold and_then. destruct (p w) as [[[a|e] w1]|].
  - split; [by exists a, w1|]. by intros (? & ? & [= <- <-] & ?).
  - split; [done|]. by intros (? & ? & ? & ?).
  - split; [done|]. by intros (? & ? & ? & ?).
Qed.

Lemma and_then_Rejected {A B} (p : Promise A) (f : A → Promise B) w e w' :
  and_then p f w = Some (Rejected e, w') ↔
  p w = Some (Rejected e, w') ∨
  ∃ a w1, p w = Some (Fulfilled a, w1) ∧ f a w1 = Some (Rejected e, w').
Proof.
  unfold and_then. destruct (p w) as [[[a|e1] w1]|].
  - split; [right; by exists a, w1|].
    by intros [?|(? & ? & [= <- <-] & ?)].
  - split; [intros [= -> ->]; by left|].
    by intros [[= -> ->]|(? & ? & ? & ?)].
  - split; [done|]. by intros [?|(? & ? & ? & ?)].
Qed.

Lemma keeps_committed_and_then {A B} (p : Promise A) (f : A → Promise B) :
  keeps_committed p → (∀ a, keeps_committed (f a)) →
  keeps_committed (and_then p f).
Proof.
  intros Hp Hf w r w'. unfold and_then.
  destruct (p w) as [[[a|e] w1]|] eqn:E; [| |done].
  - intros Hfa. apply Hf in Hfa. apply Hp in E. congruence.
  - intros [= <- <-]. by apply Hp in E.
Qed.

Lemma keeps_committed_resolve {A} (a : A) : keeps_committed (resolve a).
Proof. by intros w r w' [= <- <-]. Qed.

Lemma keeps_committed_reject {A} e : keeps_committed (@reject A e).
Proof. by intros w r w' [= <- <-]. Qed.

Lemma keeps_committed_of_completion {A} (c : Completion A) :
  keeps_committed (of_completion c).
Proof.
  destruct c; [apply keeps_committed_resolve|apply keeps_committed_reject].
Qed.

Section PersistenceFacts.
Variable h : DataImportHelper.
Variable query_fails : nat → bool.

(** A query sent through the handle of the transaction works on the
    tables of the transaction only. *)
Lemma keeps_committed_query_Trx {A} (run : Tables → A * Tables) :
  keeps_committed (query query_fails Trx run).
Proof.
  intros w r w'. unfold query.
  destruct (query_fails _); [by intros [= <- <-]|].
  destruct (pending w); by intros [= <- <-].
Qed.

Lemma query_Trx_Fulfilled {A} (run : Tables → A * Tables) w a w' :
  query query_fails Trx run w = Some (Fulfilled a, w') →
  ∃ T, pending w = Some T ∧ a = (run T).1 ∧ pending w' = Some (run T).2.
Proof.
  unfold query. destruct (query_fails _); [done|].
  destruct (pending w) as [T|]; [|done].
  intros [= <- <-]. by exists T.
Qed.

Lemma keeps_committed_models c : keeps_committed (models c).
Proof.
  intros w r w'. unfold models.
  destruct (caches w c); by intros [= <- <-].
Qed.

Lemma keeps_committed_insert_if_any j rows :
  keeps_committed (insert_if_any query_fails Trx j rows).
Proof.
  destruct rows; [apply keeps_committed_resolve|].
  apply keeps_committed_query_Trx.
Qed.

Lemma keeps_committed_processInternationalData l :
  keeps_committed (processInternationalData h query_fails l Trx).
Proof.
  intros w r w'. unfold processInternationalData.
  rewrite getInternationalData_rows. apply keeps_committed_query_Trx.
Qed.

Lemma keeps_committed_processEVSERelationalData l :
  keeps_committed (processEVSERelationalData h query_fails l Trx).
Proof.
  unfold processEVSERelationalData.
  repeat (apply keeps_committed_and_then;
          [first [apply keeps_committed_models
                 |apply keeps_committed_insert_if_any]|intros ?]).
  apply keeps_committed_insert_if_any.
Qed.

Lemma keeps_committed_processPossibleSubOperators l :
  keeps_committed
    (processPossibleSubOperatorsFromEvseData query_fails l Trx).
Proof.
  unfold processPossibleSubOperatorsFromEvseData.
  apply keeps_committed_and_then; [apply keeps_committed_of_completion|].
  intros ops.
  apply keeps_committed_and_then; [apply keeps_committed_query_Trx|].
  intros _. apply keeps_committed_resolve.
Qed.

(** Every query of the station phase goes through [trx]. *)
Lemma keeps_committed_processEvseData_steps l :
  keeps_committed (processEvseData_steps h query_fails l Trx).
Proof.
  unfold processEvseData_steps.
  apply keeps_committed_and_then; [apply keeps_committed_query_Trx|].
  intros _.
  apply keeps_committed_and_then;
    [apply keeps_committed_processPossibleSubOperators|].
  intros l'.
  apply keeps_committed_and_then; [apply keeps_committed_models|].
  intros accessibilities.
  apply keeps_committed_and_then; [apply keeps_committed_query_Trx|].
  intros _.
  apply keeps_committed_and_then;
    [apply keeps_committed_processInternationalData|].
  intros _. apply keeps_committed_processEVSERelationalData.
Qed.

(** A rejected transaction leaves the committed tables as they were when
    it began, provided its queries went through its handle. *)
Lemma transaction_Rejected {A} (cb : Knex → Promise A) w e w' :
  keeps_committed (cb Trx) →
  transaction query_fails cb w = Some (Rejected e, w') →
  committed w' = committed w ∧ pending w' = None.
Proof.
  intros Hcb. unfold transaction.
  destruct (cb Trx _) as [[[a|e1] w1]|] eqn:E; [| |done].
  - apply Hcb in E. simpl in E.
    destruct (pending w1) eqn:EP; [destruct (query_fails _)|];
      intros ?; by simplify_eq/=.
  - apply Hcb in E. simpl in E. by intros [= <- <-].
Qed.

Lemma transaction_Fulfilled {A} (cb : Knex → Promise A) w a w' :
  transaction query_fails cb w = Some (Fulfilled a, w') →
  ∃ w1 T,
    cb Trx (set_pending (Some (committed w)) w) = Some (Fulfilled a, w1) ∧
    pending w1 = Some T ∧ committed w' = T ∧ caches w' = caches w1.
Proof.
  unfold transaction.
  destruct (cb Trx _) as [[[a1|e1] w1]|] eqn:E; [| |done].
  - destruct (pending w1) as [T|] eqn:ET; [|done].
    destruct (query_fails _); [done|].
    intros [= <- <-]. by exists w1, T.
  - by intros [= <- <-].
Qed.

End PersistenceFacts.

Section ImportFacts.
Variable h : DataImportHelper.
Variable query_fails : nat → bool.

Lemma keeps_committed_cached_or_fetch c :
  keeps_committed (cached_or_fetch query_fails c).
Proof.
  intros w r w'. unfold cached_or_fetch, fetchAll, query.
  destruct (caches w c); [by intros [= <- <-]|].
  destruct (query_fails _); by intros [= <- <-].
Qed.

Lemma keeps_committed_loadDependentData :
  keeps_committed (loadDependentData query_fails).
Proof.
  unfold loadDependentData.
  repeat (apply keeps_committed_and_then;
          [apply keeps_committed_cached_or_fetch|intros ?]).
  by intros w r w' [= <- <-].
Qed.

(** A fulfilled operator phase replaces the operator rows by the operators
    of the feed and touches no other table. *)
Lemma processOperatorData_Fulfilled od w w' :
  processOperatorData query_fails od w = Some (Fulfilled tt, w') →
  tbl_Operator (committed w') =
    upsert IOperator.id (mapOperatorDataToOperators od) ∅ ∧
  tbl_EVSE (committed w') = tbl_EVSE (committed w) ∧
  tbl_EVSE_tr (committed w') = tbl_EVSE_tr (committed w) ∧
  tbl_join (committed w') = tbl_join (committed w).
Proof.
  unfold processOperatorData.
  intros (w1 & T & Hcb & HT' & -> & _)%transaction_Fulfilled.
  apply and_then_Fulfilled in Hcb as ([] & w2 & Hdel & Hins).
  apply query_Trx_Fulfilled in Hdel as (T0 & HT0 & _ & HT1).
  apply query_Trx_Fulfilled in Hins as (T1 & HT1' & _ & HT).
  simpl in HT0. simplify_eq/=. done.
Qed.

End ImportFacts.

(** C4: a station list with an identifier that does not match the
    operator-id pattern makes the resolution throw a TypeError; the step of
    the station phase is rejected with it, and the station phase as a whole
    is rejected and leaves the committed tables untouched. *)
Theorem C4_malformed_identifier_is_fatal (h : DataImportHelper)
    (query_fails : nat → bool) (l : list IEvseDataRecord.t) (w : World) :
  Exists (fun d => OPERATOR_ID_REGEX_exec (IEvseDataRecord.EvseId d) = None) l →
  (possibleSubOperators l).2 = Throw TypeError ∧
  (∀ trx w0,
     processPossibleSubOperatorsFromEvseData query_fails l trx w0 =
     Some (Rejected TypeError, w0)) ∧
  ∃ e w',
    transaction query_fails (processEvseData_steps h query_fails l) w =
      Some (Rejected e, w') ∧
    committed w' = committed w.
Proof.
  intros Hl. apply (subOperators_forEach_malformed l []) in Hl.
  assert (∀ trx w0,
    processPossibleSubOperatorsFromEvseData query_fails l trx w0 =
    Some (Rejected TypeError, w0)) as Hstep.
  { intros trx w0. unfold processPossibleSubOperatorsFromEvseData,
      possibleSubOperators. by rewrite Hl. }
  split_and!; [done|done|].
  assert (∃ e w1,
    processEvseData_steps h query_fails l Trx
      (set_pending (Some (committed w)) w) = Some (Rejected e, w1))
    as (e & w1 & Hsteps).
  { unfold processEvseData_steps, and_then at 1.
    destruct (clearData query_fails Trx _) as [[[[]|e] w1]|] eqn:Hclear.
    - unfold and_then. rewrite Hstep. by eexists _, _.
    - by eexists _, _.
    - unfold clearData, delete_EVSE, query in Hclear. simpl in Hclear.
      by destruct (query_fails _). }
  exists e, (set_pending None w1).
  assert (transaction query_fails (processEvseData_steps h query_fails l) w =
          Some (Rejected e, set_pending None w1)) as Htrx.
  { unfold transaction. by rewrite Hsteps. }
  split; [done|].
  eapply transaction_Rejected; [|done].
  apply keeps_committed_processEvseData_steps.
Qed.

Lemma C4_malformed_identifier_is_fatal_witness :
  (possibleSubOperators
     [station_of_sub_operator; station_with_malformed_id]).2 =
    Throw TypeError ∧
  (∀ trx w0,
     processPossibleSubOperatorsFromEvseData no_fault
       [station_of_sub_operator; station_with_malformed_id] trx w0 =
     Some (Rejected TypeError, w0)) ∧
  ∃ e w',
    transaction no_fault
      (processEvseData_steps sample_helper no_fault
         [station_of_sub_operator; station_with_malformed_id])
      sample_world = Some (Rejected e, w') ∧
    committed w' = committed sample_world.
Proof.
  apply (C4_malformed_identifier_is_fatal sample_helper no_fault
           [station_of_sub_operator; station_with_malformed_id] sample_world).
  apply Exists_cons_tl, Exists_cons_hd. vm_compute. reflexivity.
Defined.

(** C8: the station phase is one transaction. When the operator phase of
    a run has been fulfilled and the station phase is rejected, at the
    clear step or at any step after it, the run is rejected with the same
    error, the committed tables are those that the station phase started
    with and no transaction is left open: the operator rows are the
    operators of the feed, written by the operator phase, and the station
    rows, the translation rows and the join rows are those of before the
    run. *)
Theorem C8_station_phase_rolls_back (h : DataImportHelper)
    (query_fails : nat → bool) (od : list IOperatorEvseData.t)
    (w w1 w' : World) (e : Error) :
  and_then (loadDependentData query_fails)
    (fun _ => processOperatorData query_fails od) w = Some (Fulfilled tt, w1) →
  processEvseData h query_fails od w1 = Some (Rejected e, w') →
  execute h query_fails od w = Some (Rejected e, w') ∧
  committed w' = committed w1 ∧
  pending w' = None ∧
  tbl_Operator (committed w') =
    upsert IOperator.id (mapOperatorDataToOperators od) ∅ ∧
  tbl_EVSE (committed w') = tbl_EVSE (committed w) ∧
  tbl_EVSE_tr (committed w') = tbl_EVSE_tr (committed w) ∧
  tbl_join (committed w') = tbl_join (committed w).
Proof.
  intros Hop Hst.
  apply and_then_Fulfilled in Hop as ([] & w0 & Hload & Hop).
  pose proof (keeps_committed_loadDependentData query_fails _ _ _ Hload)
    as Hw0.
  pose proof (processOperatorData_Fulfilled query_fails _ _ _ Hop)
    as (HO & HE & HT & HJ).
  assert (committed w' = committed w1 ∧ pending w' = None) as [Hc Hp].
  { eapply transaction_Rejected; [|exact Hst].
    apply keeps_committed_processEvseData_steps. }
  split_and!; [|done|done|congruence..].
  unfold execute. apply and_then_Rejected. right. exists (), w0.
  split; [done|]. apply and_then_Rejected. right. by exists (), w1.
Qed.

Lemma C8_station_phase_rolls_back_witness :
  ∃ w1 w' e,
    (and_then (loadDependentData (fault_at 12))
       (fun _ => processOperatorData (fault_at 12) sample_feed) sample_world =
       Some (Fulfilled tt, w1) ∧
     processEvseData sample_helper (fault_at 12) sample_feed w1 =
       Some (Rejected e, w')) ∧
    execute sample_helper (fault_at 12) sample_feed sample_world =
      Some (Rejected e, w') ∧
    tbl_EVSE (committed w') = tbl_EVSE sample_tables.
Proof.
  eexists _, _, _.
  assert (∀ (P Q R : Prop), P → Q → (P → Q → R) → (P ∧ Q) ∧ R) as Hcut
    by tauto.
  apply Hcut.
  - vm_compute. reflexivity.
  - vm_compute. reflexivity.
  - intros Hop Hst.
    destruct (C8_station_phase_rolls_back sample_helper (fault_at 12)
                sample_feed sample_world _ _ _ Hop Hst)
      as (Hrun & _ & _ & _ & HE & _).
    split; [exact Hrun|exact HE].
Defined.

(** ** Referential integrity of a run *)

Lemma upsert_lookup `{Countable K} {V} (key : V → K) rows (m : gmap K V) k r :
  upsert key rows m !! k = Some r → r ∈ rows ∨ m !! k = Some r.
Proof.
  unfold upsert. revert m. induction rows as [|x rows IH]; intros m; simpl.
  - by right.
  - intros Hr. apply IH in Hr as [Hr|Hr]; [left; by right|].
    destruct (decide (key x = k)) as [<-|Hne].
    + rewrite lookup_insert_eq in Hr. injection Hr as <-. left. by left.
    + rewrite lookup_insert_ne in Hr by done. by right.
Qed.

Lemma upsert_mono `{Countable K} {V} (key : V → K) rows (m : gmap K V) k :
  is_Some (m !! k) → is_Some (upsert key rows m !! k).
Proof.
  unfold upsert. revert m. induction rows as [|x rows IH]; intros m; simpl.
  - done.
  - intros Hk. apply IH. apply lookup_insert_is_Some.
    destruct (decide (key x = k)); [by left|by right].
Qed.

Lemma upsert_elem `{Countable K} {V} (key : V → K) rows (m : gmap K V) r :
  r ∈ rows → is_Some (upsert key rows m !! key r).
Proof.
  revert m. induction rows as [|x rows IH]; intros m.
  - by intros ?%elem_of_nil.
  - intros [->|Hr]%elem_of_cons.
    + apply (upsert_mono key rows). rewrite lookup_insert_eq. by eexists.
    + by apply (IH (<[key x:=x]> m)).
Qed.

Lemma subOperators_forEach_Normal (l : list IEvseDataRecord.t)
    (subOperators ops : list IOperator.t) :
  (subOperators_forEach l subOperators).2 = Normal ops →
  Forall well_formed_id l.
Proof.
  revert subOperators. induction l as [|d l IH]; intros subOperators;
    [constructor|].
  cbn [subOperators_forEach]. unfold well_formed_id at 1.
  destruct (OPERATOR_ID_REGEX_exec _) as [c|] eqn:Hc; [|done].
  destruct (decide _); cbn [snd]; intros Hops%IH; by constructor.
Qed.

Lemma of_completion_Fulfilled {A} (c : Completion A) w a w' :
  of_completion c w = Some (Fulfilled a, w') → c = Normal a ∧ w' = w.
Proof. destruct c; [by intros [= <- <-]|done]. Qed.

Lemma keeps_operators_and_stations_and_then {A B}
    (p : Promise A) (f : A → Promise B) :
  keeps_operators_and_stations p →
  (∀ a, keeps_operators_and_stations (f a)) →
  keeps_operators_and_stations (and_then p f).
Proof.
  intros Hp Hf w b w' T (a & w1 & Hpw & Hfw)%and_then_Fulfilled HT.
  destruct (Hp _ _ _ _ Hpw HT) as (T1 & HT1 & HO1 & HE1).
  destruct (Hf _ _ _ _ _ Hfw HT1) as (T' & HT' & HO & HE).
  exists T'. split_and!; [done|congruence..].
Qed.

Lemma keeps_operators_and_stations_resolve {A} (a : A) :
  keeps_operators_and_stations (resolve a).
Proof. intros w b w' T [= <- <-] HT. by exists T. Qed.

Section IntegrityFacts.
Variable h : DataImportHelper.
Variable query_fails : nat → bool.

Lemma keeps_operators_and_stations_query {A} (run : Tables → A * Tables) :
  (∀ T, tbl_Operator (run T).2 = tbl_Operator T ∧
        tbl_EVSE (run T).2 = tbl_EVSE T) →
  keeps_operators_and_stations (query query_fails Trx run).
Proof.
  intros Hrun w a w' T (T0 & HT0 & _ & HT')%query_Trx_Fulfilled HT.
  exists (run T0).2. destruct (Hrun T0). by simplify_eq.
Qed.

Lemma keeps_operators_and_stations_models c :
  keeps_operators_and_stations (models c).
Proof.
  intros w a w' T. unfold models.
  destruct (caches w c); [|done]. intros [= <- <-] HT. by exists T.
Qed.

Lemma keeps_operators_and_stations_insert_if_any j rows :
  keeps_operators_and_stations (insert_if_any query_fails Trx j rows).
Proof.
  destruct rows; [apply keeps_operators_and_stations_resolve|].
  by apply keeps_operators_and_stations_query.
Qed.

Lemma keeps_operators_and_stations_processInternationalData l :
  keeps_operators_and_stations
    (processInternationalData h query_fails l Trx).
Proof.
  intros w a w' T. unfold processInternationalData.
  rewrite getInternationalData_rows.
  by apply keeps_operators_and_stations_query.
Qed.

Lemma keeps_operators_and_stations_processEVSERelationalData l :
  keeps_operators_and_stations
    (processEVSERelationalData h query_fails l Trx).
Proof.
  unfold processEVSERelationalData.
  repeat (apply keeps_operators_and_stations_and_then;
          [first [apply keeps_operators_and_stations_models
                 |apply keeps_operators_and_stations_insert_if_any]
          |intros ?]).
  apply keeps_operators_and_stations_insert_if_any.
Qed.

(** The tables of the transaction after a fulfilled station phase. *)
Lemma processEvseData_steps_Fulfilled l w w' T0 :
  processEvseData_steps h query_fails l Trx w = Some (Fulfilled tt, w') →
  pending w = Some T0 →
  ∃ T ops accessibilities,
    pending w' = Some T ∧
    (possibleSubOperators l).2 = Normal ops ∧
    tbl_Operator T = upsert IOperator.id ops (tbl_Operator T0) ∧
    tbl_EVSE T =
      upsert IEVSE.id
        (mapEvseDataToEvses h accessibilities (possibleSubOperators l).1) ∅.
Proof.
  unfold processEvseData_steps. intros Hsteps HT0.
  apply and_then_Fulfilled in Hsteps as ([] & wa & Hclear & Hsteps).
  apply query_Trx_Fulfilled in Hclear as (T0' & HT0' & _ & HT1).
  apply and_then_Fulfilled in Hsteps as (l' & wb & Hsub & Hsteps).
  unfold processPossibleSubOperatorsFromEvseData in Hsub.
  apply and_then_Fulfilled in Hsub as (ops & wa' & Hops & Hsub).
  apply of_completion_Fulfilled in Hops as [Hops ->].
  apply and_then_Fulfilled in Hsub as ([] & wb' & Hins & Hres).
  apply query_Trx_Fulfilled in Hins as (T1 & HT1' & _ & HT2).
  injection Hres as <- <-.
  apply and_then_Fulfilled in Hsteps as (acc & wc & Hacc & Hsteps).
  assert (wc = wb') as ->.
  { unfold models in Hacc. destruct (caches wb' _); [|done].
    by injection Hacc. }
  apply and_then_Fulfilled in Hsteps as ([] & wd & Hevse & Htail).
  apply query_Trx_Fulfilled in Hevse as (T2 & HT2' & _ & HT3).
  pose proof (keeps_operators_and_stations_and_then _ _
    (keeps_operators_and_stations_processInternationalData _)
    (fun _ => keeps_operators_and_stations_processEVSERelationalData _)
    _ _ _ _ Htail HT3) as (T & HT & HO & HE).
  exists T, ops, acc. simplify_eq/=. by rewrite HO, HE.
Qed.

Lemma retrieveEvseDataFromOperatorData_OperatorId od d :
  d ∈ retrieveEvseDataFromOperatorData h od →
  ∃ op, op ∈ od ∧
        IEvseDataRecord.OperatorId d = Some (IOperatorEvseData.OperatorID op).
Proof.
  unfold retrieveEvseDataFromOperatorData.
  assert (∀ acc,
    (∀ d, d ∈ acc → ∃ op, op ∈ od ∧
       IEvseDataRecord.OperatorId d = Some (IOperatorEvseData.OperatorID op)) →
    ∀ ods, ods ⊆ od →
    ∀ d, d ∈ foldl
      (fun evseData operatorData1 =>
         evseData ++
           (IEvseDataRecord.set_OperatorId
              (Some (IOperatorEvseData.OperatorID operatorData1)) <$>
              getArrayByValue_Array h _
                (IOperatorEvseData.EvseDataRecord operatorData1)))
      acc ods →
    ∃ op, op ∈ od ∧
       IEvseDataRecord.OperatorId d = Some (IOperatorEvseData.OperatorID op))
    as Hgen.
  { intros acc Hacc ods. revert acc Hacc.
    induction ods as [|op ods IH]; intros acc Hacc Hods d'; simpl.
    - apply Hacc.
    - apply IH; [|set_solver].
      intros d0 [Hd0|(d1 & -> & _)%list_elem_of_fmap]%elem_of_app.
      + by apply Hacc.
      + exists op. split; [set_solver|done]. }
  apply (Hgen []); [by intros ? ?%elem_of_nil|done].
Qed.

End IntegrityFacts.

(** After a fulfilled run every station row of the store carries an
    operator id that is the id of an operator row of the store, and that
    is the id of a top-level operator mapped from the feed or the id of a
    sub-operator derived in the station phase of the run. *)
Lemma execute_stations_reference_operators (h : DataImportHelper)
    (query_fails : nat → bool) (od : list IOperatorEvseData.t)
    (w w' : World) :
  execute h query_fails od w = Some (Fulfilled tt, w') →
  ∀ k row, tbl_EVSE (committed w') !! k = Some row →
    ∃ o, IEVSE.operatorId row = Some o ∧
         is_Some (tbl_Operator (committed w') !! o) ∧
         (o ∈ IOperator.id <$> mapOperatorDataToOperators od ∨
          ∃ ops,
            (possibleSubOperators
               (retrieveEvseDataFromOperatorData h od)).2 = Normal ops ∧
            o ∈ IOperator.id <$> ops).
Proof.
  unfold execute. intros Hrun k row Hrow.
  apply and_then_Fulfilled in Hrun as ([] & w0 & _ & Hrun).
  apply and_then_Fulfilled in Hrun as ([] & w1 & Hop & Hst).
  apply processOperatorData_Fulfilled in Hop as (HO1 & _).
  unfold processEvseData in Hst.
  apply transaction_Fulfilled in Hst as (w2 & T & Hsteps & HT & Hc & _).
  eapply processEvseData_steps_Fulfilled in Hsteps as
    (T' & ops & acc & HT' & Hops & HO & HE); [|done].
  rewrite Hc in Hrow |- *. simplify_eq/=. rewrite HO, HO1. rewrite HE in Hrow.
  set (l := retrieveEvseDataFromOperatorData h od) in *.
  pose proof (subOperators_forEach_Normal _ _ _ Hops) as Hwf.
  pose proof (subOperators_forEach_well_formed l [] Hwf) as Hres.
  unfold possibleSubOperators in *. rewrite Hres in Hops, Hrow.
  cbn [fst snd] in Hops, Hrow. injection Hops as <-.
  apply upsert_lookup in Hrow as [Hrow|Hrow]; [|by rewrite lookup_empty in Hrow].
  apply list_elem_of_fmap in Hrow as (d' & -> & Hd').
  apply list_elem_of_fmap in Hd' as (d & -> & Hd).
  cbn [IEVSE.operatorId].
  unfold spec_resolved_station.
  destruct (decide (IEvseDataRecord.OperatorId d = Some (candidate d)))
    as [Hnom|Hsub].
  - apply retrieveEvseDataFromOperatorData_OperatorId in Hd
      as (op & Hop & HopId).
    exists (IOperatorEvseData.OperatorID op).
    assert (IOperatorEvseData.OperatorID op ∈
            IOperator.id <$> mapOperatorDataToOperators od) as Hin.
    { unfold mapOperatorDataToOperators. rewrite <- list_fmap_compose.
      apply list_elem_of_fmap. by exists op. }
    split_and!; [done| |by left].
    apply upsert_mono.
    apply list_elem_of_fmap in Hin as (r & -> & Hr).
    by apply upsert_elem.
  - exists (candidate d).
    assert ({| IOperator.id := candidate d; IOperator.name := None;
               IOperator.parentId := IEvseDataRecord.OperatorId d |}
            ∈ l ≫= spec_derived_operators) as Hin.
    { apply list_elem_of_bind. exists d. split; [|done].
      unfold spec_derived_operators. rewrite decide_False by done.
      by apply list_elem_of_singleton. }
    split_and!; [done| |].
    + by apply (upsert_elem IOperator.id) with (m := upsert IOperator.id
        (mapOperatorDataToOperators od) ∅) in Hin.
    + right. exists (l ≫= spec_derived_operators).
      split; [by rewrite Hres|].
      apply list_elem_of_fmap. eexists. split; [|exact Hin]. done.
Qed.

(** *** The order of the writes of the station phase *)

Lemma and_then_settled {A B} (p : Promise A) (f : A → Promise B) w r w' :
  and_then p f w = Some (r, w') →
  (∃ e, p w = Some (Rejected e, w') ∧ r = Rejected e) ∨
  (∃ a w1, p w = Some (Fulfilled a, w1) ∧ f a w1 = Some (r, w')).
Proof.
  unfold and_then. destruct (p w) as [[[a|e] w1]|]; [| |done].
  - intros Hf. right. by exists a, w1.
  - intros [= <- <-]. left. by exists e.
Qed.

Lemma stations_reference_operators_frame (T T' : Tables) :
  tbl_Operator T' = tbl_Operator T → tbl_EVSE T' = tbl_EVSE T →
  stations_reference_operators T → stations_reference_operators T'.
Proof. intros HO HE HT k row. rewrite HE, HO. apply HT. Qed.

Lemma stations_reference_operators_empty (T : Tables) :
  tbl_EVSE T = ∅ → stations_reference_operators T.
Proof. intros HE k row. by rewrite HE, lookup_empty. Qed.

Lemma keeps_references_and_then {A B} (p : Promise A) (f : A → Promise B) :
  keeps_references p → (∀ a, keeps_references (f a)) →
  keeps_references (and_then p f).
Proof.
  intros Hp Hf w r w' T Hrun HT Href.
  apply and_then_settled in Hrun as [(e & Hpw & ->)|(a & w1 & Hpw & Hfw)].
  - by eapply Hp.
  - destruct (Hp _ _ _ _ Hpw HT Href) as (T1 & HT1 & Href1).
    by eapply Hf.
Qed.

Lemma keeps_references_resolve {A} (a : A) : keeps_references (resolve a).
Proof. intros w r w' T [= <- <-] HT Href. by exists T. Qed.

Lemma keeps_references_reject {A} e : keeps_references (@reject A e).
Proof. intros w r w' T [= <- <-] HT Href. by exists T. Qed.

Lemma keeps_references_of_completion {A} (c : Completion A) :
  keeps_references (of_completion c).
Proof.
  destruct c; [apply keeps_references_resolve|apply keeps_references_reject].
Qed.

Lemma keeps_references_models c : keeps_references (models c).
Proof.
  intros w r w' T. unfold models.
  destruct (caches w c); intros [= <- <-] HT Href; by exists T.
Qed.

Section ReferenceFacts.
Variable h : DataImportHelper.
Variable query_fails : nat → bool.

(** A query that fails leaves the tables of the transaction as they
    were. *)
Lemma keeps_references_query {A} (run : Tables → A * Tables) :
  (∀ T, stations_reference_operators T →
        stations_reference_operators (run T).2) →
  keeps_references (query query_fails Trx run).
Proof.
  intros Hrun w r w' T Hq HT Href. unfold query in Hq. rewrite HT in Hq.
  destruct (query_fails _); injection Hq as <- <-.
  - by exists T.
  - exists (run T).2. split; [done|by apply Hrun].
Qed.

Lemma query_Trx_Rejected {A} (run : Tables → A * Tables) w e w' :
  query query_fails Trx run w = Some (Rejected e, w') →
  pending w' = pending w.
Proof.
  unfold query. destruct (query_fails _); [by intros [= _ <-]|].
  destruct (pending w) eqn:E; [done|]. intros [= _ <-]. by rewrite <- E.
Qed.

Lemma keeps_references_insert_if_any j rows :
  keeps_references (insert_if_any query_fails Trx j rows).
Proof.
  destruct rows; [apply keeps_references_resolve|].
  apply keeps_references_query. intros T.
  by apply stations_reference_operators_frame.
Qed.

Lemma keeps_references_processInternationalData l :
  keeps_references (processInternationalData h query_fails l Trx).
Proof.
  intros w r w' T. unfold processInternationalData.
  rewrite getInternationalData_rows.
  apply keeps_references_query. intros T1.
  by apply stations_reference_operators_frame.
Qed.

Lemma keeps_references_processEVSERelationalData l :
  keeps_references (processEVSERelationalData h query_fails l Trx).
Proof.
  unfold processEVSERelationalData.
  repeat (apply keeps_references_and_then;
          [first [apply keeps_references_models
                 |apply keeps_references_insert_if_any]|intros ?]).
  apply keeps_references_insert_if_any.
Qed.

(** Operator rows written do not take away the row a station refers
    to. *)
Lemma keeps_references_insertOrUpdate_Operator rows :
  keeps_references (insertOrUpdate_Operator query_fails Trx rows).
Proof.
  apply keeps_references_query. intros T Href k row Hrow.
  destruct (Href k row Hrow) as (o & Ho & Hin).
  exists o. split; [done|]. by apply upsert_mono.
Qed.

Lemma keeps_references_processPossibleSubOperators l :
  keeps_references
    (processPossibleSubOperatorsFromEvseData query_fails l Trx).
Proof.
  unfold processPossibleSubOperatorsFromEvseData.
  apply keeps_references_and_then; [apply keeps_references_of_completion|].
  intros ops.
  apply keeps_references_and_then;
    [apply keeps_references_insertOrUpdate_Operator|].
  intros _. apply keeps_references_resolve.
Qed.

(** The operator of a station row to be written is an operator of the
    feed or a sub-operator derived from the stations. *)
Lemma resolved_stations_operatorId od acc ops row :
  (possibleSubOperators (retrieveEvseDataFromOperatorData h od)).2 =
    Normal ops →
  row ∈ mapEvseDataToEvses h acc
          (possibleSubOperators (retrieveEvseDataFromOperatorData h od)).1 →
  ∃ o, IEVSE.operatorId row = Some o ∧
       (o ∈ IOperator.id <$> mapOperatorDataToOperators od ∨
        o ∈ IOperator.id <$> ops).
Proof.
  set (l := retrieveEvseDataFromOperatorData h od).
  intros Hops Hrow.
  pose proof (subOperators_forEach_Normal _ _ _ Hops) as Hwf.
  pose proof (subOperators_forEach_well_formed l [] Hwf) as Hres.
  unfold possibleSubOperators in *. rewrite Hres in Hops, Hrow.
  cbn [fst snd] in Hops, Hrow. injection Hops as <-.
  apply list_elem_of_fmap in Hrow as (d' & -> & Hd').
  apply list_elem_of_fmap in Hd' as (d & -> & Hd).
  cbn [IEVSE.operatorId]. unfold spec_resolved_station.
  destruct (decide (IEvseDataRecord.OperatorId d = Some (candidate d)))
    as [Hnom|Hsub].
  - apply retrieveEvseDataFromOperatorData_OperatorId in Hd
      as (op & Hop & HopId).
    exists (IOperatorEvseData.OperatorID op). split; [done|]. left.
    unfold mapOperatorDataToOperators. rewrite <- list_fmap_compose.
    apply list_elem_of_fmap. by exists op.
  - exists (candidate d). split; [done|]. right.
    apply list_elem_of_fmap.
    exists {| IOperator.id := candidate d; IOperator.name := None;
              IOperator.parentId := IEvseDataRecord.OperatorId d |}.
    split; [done|]. apply list_elem_of_bind. exists d. split; [|done].
    unfold spec_derived_operators. rewrite decide_False by done.
    by apply list_elem_of_singleton.
Qed.

(** However the station phase settles once its clear step has gone
    through, every station row that the transaction holds refers to an
    operator row that the transaction holds: the sub-operators are written
    before the stations. *)
Lemma processEvseData_steps_references od w r w' T0 :
  pending w = Some T0 →
  tbl_Operator T0 = upsert IOperator.id (mapOperatorDataToOperators od) ∅ →
  query_fails (issued w) = false →
  processEvseData_steps h query_fails
    (retrieveEvseDataFromOperatorData h od) Trx w = Some (r, w') →
  ∃ T, pending w' = Some T ∧ stations_reference_operators T.
Proof.
  set (l := retrieveEvseDataFromOperatorData h od).
  intros HT0 HO0 Hq. unfold processEvseData_steps. intros Hsteps.
  apply and_then_settled in Hsteps
    as [(e & Hclear & ->)|([] & wa & Hclear & Hsteps)].
  { unfold clearData, delete_EVSE, query in Hclear.
    by rewrite Hq, HT0 in Hclear. }
  apply query_Trx_Fulfilled in Hclear as (T0' & HT0' & _ & HT1).
  assert (T0' = T0) as -> by congruence. cbn [snd] in HT1.
  apply and_then_settled in Hsteps
    as [(e & Hsub & ->)|(l' & wb & Hsub & Hsteps)].
  { eapply keeps_references_processPossibleSubOperators; [done..|].
    by apply stations_reference_operators_empty. }
  unfold processPossibleSubOperatorsFromEvseData in Hsub.
  apply and_then_Fulfilled in Hsub as (ops & wa' & Hops & Hsub).
  apply of_completion_Fulfilled in Hops as [Hops ->].
  apply and_then_Fulfilled in Hsub as ([] & wb' & Hins & Hres).
  apply query_Trx_Fulfilled in Hins as (T1 & HT1' & _ & HT2).
  injection Hres as <- <-. cbn [snd] in HT2.
  assert (∀ wc, pending wc = pending wb' →
                ∃ T, pending wc = Some T ∧ stations_reference_operators T)
    as Hbefore.
  { intros wc ->. eexists. split; [done|].
    apply stations_reference_operators_empty. simplify_eq/=. done. }
  apply and_then_settled in Hsteps
    as [(e & Hacc & ->)|(acc & wc & Hacc & Hsteps)].
  { apply Hbefore. unfold models, resolve, reject in Hacc.
    destruct (caches wb' _); by simplify_eq. }
  assert (wc = wb') as ->.
  { unfold models in Hacc. destruct (caches wb' _); [|done].
    by injection Hacc. }
  apply and_then_settled in Hsteps
    as [(e & Hevse & ->)|([] & wd & Hevse & Htail)].
  { apply Hbefore. by eapply query_Trx_Rejected. }
  apply query_Trx_Fulfilled in Hevse as (T2 & HT2' & _ & HT3).
  cbn [snd] in HT3.
  eapply (keeps_references_and_then _ _
            (keeps_references_processInternationalData _)
            (fun _ => keeps_references_processEVSERelationalData _));
    [exact Htail|exact HT3|].
  intros k row Hrow. simplify_eq/=.
  apply upsert_lookup in Hrow as [Hrow|Hrow];
    [|by rewrite lookup_empty in Hrow].
  destruct (resolved_stations_operatorId od acc ops row Hops Hrow)
    as (o & Ho & [Hin|Hin]); exists o; (split; [done|]).
  - apply upsert_mono. rewrite HO0.
    apply list_elem_of_fmap in Hin as (op & -> & Hop).
    by apply upsert_elem.
  - apply list_elem_of_fmap in Hin as (op & -> & Hop).
    by apply upsert_elem.
Qed.

End ReferenceFacts.

(** C9: after a fulfilled run every station row of the store carries an
    operator id that is the id of an operator row of the store, and that
    is the id of a top-level operator mapped from the feed, written in the
    operator phase, or the id of a sub-operator derived in the station
    phase. The sub-operators are written earlier in the station phase than
    the stations: the station phase starts from the tables that the
    operator phase has committed, and wherever a failing query stops it
    after its clear step, every station row that the transaction holds at
    that point refers to an operator row that the transaction holds. *)
Theorem C9_station_operator_resolves (h : DataImportHelper)
    (query_fails : nat → bool) (od : list IOperatorEvseData.t)
    (w w' : World) :
  execute h query_fails od w = Some (Fulfilled tt, w') →
  (∀ k row, tbl_EVSE (committed w') !! k = Some row →
     ∃ o, IEVSE.operatorId row = Some o ∧
          is_Some (tbl_Operator (committed w') !! o) ∧
          (o ∈ IOperator.id <$> mapOperatorDataToOperators od ∨
           ∃ ops,
             (possibleSubOperators
                (retrieveEvseDataFromOperatorData h od)).2 = Normal ops ∧
             o ∈ IOperator.id <$> ops)) ∧
  ∃ w1,
    and_then (loadDependentData query_fails)
      (fun _ => processOperatorData query_fails od) w =
      Some (Fulfilled tt, w1) ∧
    ∀ (query_fails' : nat → bool) r w2,
      query_fails' (issued w1) = false →
      processEvseData_steps h query_fails'
        (retrieveEvseDataFromOperatorData h od) Trx
        (set_pending (Some (committed w1)) w1) = Some (r, w2) →
      ∃ T, pending w2 = Some T ∧ stations_reference_operators T.
Proof.
  intros Hrun. split.
  - by apply (execute_stations_reference_operators h query_fails od w w').
  - unfold execute in Hrun.
    apply and_then_Fulfilled in Hrun as ([] & w0 & Hload & Hrun).
    apply and_then_Fulfilled in Hrun as ([] & w1 & Hop & _).
    exists w1. split.
    + apply and_then_Fulfilled. by exists (), w0.
    + intros query_fails' r w2 Hq Hsteps.
      apply processOperatorData_Fulfilled in Hop as (HO1 & _).
      exact (processEvseData_steps_references h query_fails' od
               (set_pending (Some (committed w1)) w1) r w2 (committed w1)
               eq_refl HO1 Hq Hsteps).
Qed.

Lemma C9_station_operator_resolves_witness :
  ∃ w',
    execute sample_helper no_fault sample_feed sample_world =
      Some (Fulfilled tt, w') ∧
    (∀ k row, tbl_EVSE (committed w') !! k = Some row →
       ∃ o, IEVSE.operatorId row = Some o ∧
            is_Some (tbl_Operator (committed w') !! o) ∧
            (o ∈ IOperator.id <$> mapOperatorDataToOperators sample_feed ∨
             ∃ ops,
               (possibleSubOperators
                  (retrieveEvseDataFromOperatorData sample_helper
                     sample_feed)).2 = Normal ops ∧
               o ∈ IOperator.id <$> ops)) ∧
    ∃ w1,
      and_then (loadDependentData no_fault)
        (fun _ => processOperatorData no_fault sample_feed) sample_world =
        Some (Fulfilled tt, w1) ∧
      ∀ (query_fails' : nat → bool) r w2,
        query_fails' (issued w1) = false →
        processEvseData_steps sample_helper query_fails'
          (retrieveEvseDataFromOperatorData sample_helper sample_feed) Trx
          (set_pending (Some (committed w1)) w1) = Some (r, w2) →
        ∃ T, pending w2 = Some T ∧ stations_reference_operators T.
Proof.
  eexists.
  assert (∀ (P Q : Prop), P → (P → Q) → P ∧ Q) as Hcut by tauto.
  apply Hcut.
  - vm_compute. reflexivity.
  - intros Hrun.
    exact (C9_station_operator_resolves sample_helper no_fault sample_feed
             sample_world _ Hrun).
Defined.

(** * Further properties *)

(** ** The operator-id pattern *)

Lemma orelse_Some {A} (x y : option A) a :
  orelse x y = Some a → x = Some a ∨ (x = None ∧ y = Some a).
Proof. destruct x; simpl; [by left|by right]. Qed.

Lemma class_n_2 p s r :
  class_n p 2 s = Some r →
  ∃ a b, s = a :: b :: r ∧ p a = true ∧ p b = true.
Proof.
  intros (pre & -> & Hlen & Hp)%class_n_Some.
  destruct pre as [|a [|b [|]]]; simplify_eq/=.
  exists a, b. by repeat (apply list.Forall_cons in Hp as [? Hp]).
Qed.

Lemma class_n_3 p s r :
  class_n p 3 s = Some r →
  ∃ a b c, s = a :: b :: c :: r ∧ p a = true ∧ p b = true ∧ p c = true.
Proof.
  intros (pre & -> & Hlen & Hp)%class_n_Some.
  destruct pre as [|a [|b [|c [|]]]]; simplify_eq/=.
  exists a, b, c. by repeat (apply list.Forall_cons in Hp as [? Hp]).
Qed.

Lemma is_alnum_not_STAR x : is_alnum x = true → (STAR =? x) = false.
Proof.
  intros Hx. destruct (N.eqb_spec STAR x) as [<-|]; [|done].
  by vm_compute in Hx.
Qed.

Lemma is_digit_not_alpha d : is_digit d = true → is_alpha d = false.
Proof.
  unfold is_digit, is_alpha, is_upper, is_lower.
  rewrite andb_true_iff, orb_false_iff, !andb_false_iff, !N.leb_le, !N.leb_gt.
  lia.
Qed.

Lemma is_digit_not_PLUS d : is_digit d = true → (PLUS =? d) = false.
Proof.
  intros Hd. destruct (N.eqb_spec PLUS d) as [<-|]; [|done].
  by vm_compute in Hd.
Qed.

Lemma matched_app p rest : matched (p ++ rest) rest = p.
Proof.
  unfold matched. rewrite length_app.
  replace (length p + length rest - length rest)%nat with (length p) by lia.
  by rewrite take_app_length.
Qed.

(** What the pattern matches at the head of a string has the shape of an
    operator id. *)
Lemma operator_id_here_shape s rest :
  operator_id_here s = Some rest →
  ∃ p, s = p ++ rest ∧ operator_id_shape p.
Proof.
  unfold operator_id_here. intros [H1|[_ H2]]%orelse_Some.
  - unfold operator_id_alt1 in H1.
    destruct (class_n is_alpha 2 s) as [s1|] eqn:E; [|done]. simpl in H1.
    apply class_n_2 in E as (a & b & -> & Ha & Hb).
    apply orelse_Some in H1 as [H1|[_ H1]].
    + destruct (lit STAR s1) as [s2|] eqn:E2; [|done]. simpl in H1.
      apply lit_Some in E2 as ->.
      apply class_n_3 in H1 as (x & y & z & -> & Hx & Hy & Hz).
      exists [a; b; STAR; x; y; z]. split; [done|]. left.
      exists a, b, x, y, z. split_and!; auto.
    + apply class_n_3 in H1 as (x & y & z & -> & Hx & Hy & Hz).
      exists [a; b; x; y; z]. split; [done|]. left.
      exists a, b, x, y, z. split_and!; auto.
  - assert (∀ s0, operator_id_digits s0 = Some rest →
      ∃ ds x y z, s0 = ds ++ [STAR; x; y; z] ++ rest ∧
        (1 ≤ length ds ≤ 3)%nat ∧ Forall (fun c => is_digit c = true) ds ∧
        is_digit x = true ∧ is_digit y = true ∧ is_digit z = true) as Hdigits.
    { intros s0. unfold operator_id_digits.
      assert (∀ n, (1 ≤ n ≤ 3)%nat →
        (class_n is_digit n s0 ≫= lit STAR) ≫= class_n is_digit 3 = Some rest →
        ∃ ds x y z, s0 = ds ++ [STAR; x; y; z] ++ rest ∧
          (1 ≤ length ds ≤ 3)%nat ∧ Forall (fun c => is_digit c = true) ds ∧
          is_digit x = true ∧ is_digit y = true ∧ is_digit z = true) as Hk.
      { intros n Hn Hm.
        destruct (class_n is_digit n s0) as [s1|] eqn:E1; [|done].
        simpl in Hm.
        destruct (lit STAR s1) as [s2|] eqn:E2; [|done]. simpl in Hm.
        apply class_n_Some in E1 as (ds & -> & Hlen & Hds).
        apply lit_Some in E2 as ->.
        apply class_n_3 in Hm as (x & y & z & -> & Hx & Hy & Hz).
        exists ds, x, y, z. split_and!; try done; lia. }
      intros [H3|[_ [H3|[_ H3]]%orelse_Some]]%orelse_Some;
        (eapply Hk; [|exact H3]); lia. }
    unfold operator_id_alt2 in H2.
    apply orelse_Some in H2 as [H2|[_ H2]].
    + destruct (lit PLUS s) as [s1|] eqn:E; [|done]. simpl in H2.
      apply lit_Some in E as ->.
      apply Hdigits in H2 as (ds & x & y & z & -> & Hlen & Hds & Hx & Hy & Hz).
      exists ([PLUS] ++ ds ++ [STAR; x; y; z]). split.
      * simpl. by rewrite <- (assoc_L (++)).
      * right. exists [PLUS], ds, x, y, z. split_and!; auto; lia.
    + apply Hdigits in H2 as (ds & x & y & z & -> & Hlen & Hds & Hx & Hy & Hz).
      exists ([] ++ ds ++ [STAR; x; y; z]). split.
      * simpl. by rewrite <- (assoc_L (++)).
      * right. exists [], ds, x, y, z. split_and!; auto; lia.
Qed.

Lemma class_n_cons p n c s :
  class_n p (S n) (c :: s) = if p c then class_n p n s else None.
Proof. done. Qed.

Lemma class_n_O p s : class_n p 0 s = Some s.
Proof. done. Qed.

Lemma lit_cons c c' s : lit c (c' :: s) = if c =? c' then Some s else None.
Proof. done. Qed.

Lemma option_bind_Some_eq {A B} (f : A → option B) x : Some x ≫= f = f x.
Proof. done. Qed.

Lemma option_bind_None_eq {A B} (f : A → option B) : None ≫= f = None.
Proof. done. Qed.

Lemma orelse_Some_l {A} (a : A) y : orelse (Some a) y = Some a.
Proof. done. Qed.

Lemma orelse_None_l {A} (y : option A) : orelse None y = y.
Proof. done. Qed.

(** A string that starts with an operator id is matched at its head, by
    exactly that id. *)
Lemma operator_id_here_prefix p rest :
  operator_id_shape p → operator_id_here (p ++ rest) = Some rest.
Proof.
  assert (is_digit STAR = false) as HdS by done.
  assert (is_alpha PLUS = false) as HaP by done.
  intros [(a & b & x & y & z & Hp & Ha & Hb & Hx & Hy & Hz)
         |(sign & ds & x & y & z & -> & Hsign & Hlen & Hds & Hx & Hy & Hz)].
  - pose proof (is_alnum_not_STAR x Hx) as Hstar.
    unfold operator_id_here, operator_id_alt1.
    destruct Hp as [-> | ->]; cbn [app];
      repeat (first
        [ rewrite class_n_cons | rewrite class_n_O | rewrite lit_cons
        | rewrite N.eqb_refl
        | rewrite option_bind_Some_eq | rewrite option_bind_None_eq
        | rewrite orelse_Some_l | rewrite orelse_None_l
        | match goal with
          | H : ?b = _ |- context [if ?b then _ else _] => rewrite H
          end ]; cbv beta iota);
      done.
  - assert (∀ c, is_digit c = true → is_digit c = true ∧
              is_alpha c = false ∧ (PLUS =? c) = false) as Hfacts.
    { intros c Hc. split_and!; [done|by apply is_digit_not_alpha
                                |by apply is_digit_not_PLUS]. }
    unfold operator_id_here, operator_id_alt1, operator_id_alt2,
      operator_id_digits.
    destruct ds as [|d1 [|d2 [|d3 [|]]]]; simpl in Hlen; try lia;
      repeat (apply list.Forall_cons in Hds as [[? [? ?]]%Hfacts Hds]);
      destruct Hsign as [-> | ->]; cbn [app];
      repeat (first
        [ rewrite class_n_cons | rewrite class_n_O | rewrite lit_cons
        | rewrite N.eqb_refl
        | rewrite option_bind_Some_eq | rewrite option_bind_None_eq
        | rewrite orelse_Some_l | rewrite orelse_None_l
        | match goal with
          | H : ?b = _ |- context [if ?b then _ else _] => rewrite H
          end ]; cbv beta iota);
      done.
Qed.

Lemma OPERATOR_ID_REGEX_exec_here s rest :
  operator_id_here s = Some rest →
  OPERATOR_ID_REGEX_exec s = Some (matched s rest).
Proof. intros H. destruct s; cbn [OPERATOR_ID_REGEX_exec]; by rewrite H. Qed.

Lemma OPERATOR_ID_REGEX_exec_cons c s :
  OPERATOR_ID_REGEX_exec (c :: s) =
  match operator_id_here (c :: s) with
  | Some rest => Some (matched (c :: s) rest)
  | None => OPERATOR_ID_REGEX_exec s
  end.
Proof. done. Qed.

Lemma operator_id_shape_length p :
  operator_id_shape p → (5 ≤ length p ≤ 8)%nat.
Proof.
  intros [(a & b & x & y & z & [-> | ->] & _)
         |(sign & ds & x & y & z & -> & [-> | ->] & Hlen & _)];
    repeat (rewrite ?length_app; simpl); lia.
Qed.

Lemma OPERATOR_ID_REGEX_exec_Some (s c : jsstring) :
  OPERATOR_ID_REGEX_exec s = Some c →
  substring_of c s ∧ operator_id_shape c.
Proof.
  intros Hexec. induction s as [|c0 s IH].
  - by vm_compute in Hexec.
  - rewrite OPERATOR_ID_REGEX_exec_cons in Hexec.
    destruct (operator_id_here (c0 :: s)) as [rest|] eqn:Hhere.
    + apply operator_id_here_shape in Hhere as (p & Hp & Hshape).
      rewrite Hp, matched_app in Hexec. injection Hexec as <-.
      split; [|done]. exists [], rest. by rewrite Hp.
    + destruct (IH Hexec) as [(pre & suf & ->) Hshape].
      split; [|done]. by exists (c0 :: pre), suf.
Qed.

(** X1: The candidate operator id is cut out of the station identifier and has
    the shape of an operator id; so it has five to eight code units. *)
Theorem OPERATOR_ID_REGEX_exec_shape (s c : jsstring) :
  OPERATOR_ID_REGEX_exec s = Some c →
  substring_of c s ∧ operator_id_shape c ∧ (5 ≤ length c ≤ 8)%nat.
Proof.
  intros [Hsub Hshape]%OPERATOR_ID_REGEX_exec_Some.
  split_and!; [done|done|by apply operator_id_shape_length..].
Qed.

Lemma OPERATOR_ID_REGEX_exec_shape_witness :
  substring_of (js "DE*TBB") (js "DE*TBB*E5678") ∧
  operator_id_shape (js "DE*TBB") ∧
  (5 ≤ length (js "DE*TBB") ≤ 8)%nat.
Proof.
  apply (OPERATOR_ID_REGEX_exec_shape (js "DE*TBB*E5678") (js "DE*TBB")).
  vm_compute. reflexivity.
Defined.

(** X2: An identifier that starts with an operator id has that id as its
    candidate, whatever follows it. *)
Theorem OPERATOR_ID_REGEX_exec_prefix (p rest : jsstring) :
  operator_id_shape p → OPERATOR_ID_REGEX_exec (p ++ rest) = Some p.
Proof.
  intros Hp. rewrite (OPERATOR_ID_REGEX_exec_here _ rest).
  - by rewrite matched_app.
  - by apply operator_id_here_prefix.
Qed.

Lemma numeric_operator_id_shape : operator_id_shape (js "+49*123").
Proof.
  right. exists [PLUS], (js "49"), 49, 50, 51.
  split_and!; [done|by right|simpl; lia|simpl; lia|by repeat constructor
              |done..].
Qed.

Lemma OPERATOR_ID_REGEX_exec_prefix_witness :
  OPERATOR_ID_REGEX_exec (js "+49*123" ++ js "*E77") = Some (js "+49*123").
Proof.
  apply (OPERATOR_ID_REGEX_exec_prefix (js "+49*123") (js "*E77")).
  apply numeric_operator_id_shape.
Defined.

(** ** The first match of the pattern *)

(** [exec] returns the first match: an operator id of the identifier with
    no operator id starting to its left. *)
Lemma OPERATOR_ID_REGEX_exec_first (s c : jsstring) :
  OPERATOR_ID_REGEX_exec s = Some c → first_operator_id s c.
Proof.
  revert c. induction s as [|c0 s IH]; intros c.
  - intros Hexec. by vm_compute in Hexec.
  - rewrite OPERATOR_ID_REGEX_exec_cons.
    destruct (operator_id_here (c0 :: s)) as [rest|] eqn:Hhere.
    + apply operator_id_here_shape in Hhere as (p & Hp & Hshape).
      rewrite Hp, matched_app. intros [= <-].
      exists [], rest. split_and!; [done|done|].
      intros pre' p' suf' _ _. simpl. lia.
    + intros (pre & suf & Hs & Hshape & Hmin)%IH.
      exists (c0 :: pre), suf. split_and!; [by rewrite Hs|done|].
      intros pre' p' suf' Hs' Hp'. destruct pre' as [|x pre'].
      * simpl in Hs'. rewrite Hs' in Hhere.
        by rewrite operator_id_here_prefix in Hhere.
      * injection Hs' as _ Hs'. simpl.
        specialize (Hmin pre' p' suf' Hs' Hp'). lia.
Qed.

(** The first match is what [exec] returns: there is one first match at
    most. *)
Lemma first_operator_id_exec (s c : jsstring) :
  first_operator_id s c → OPERATOR_ID_REGEX_exec s = Some c.
Proof.
  intros (pre & suf & -> & Hshape & Hmin).
  induction pre as [|x pre IH].
  - simpl. rewrite (OPERATOR_ID_REGEX_exec_here _ suf)
      by by apply operator_id_here_prefix.
    by rewrite matched_app.
  - cbn [app]. rewrite OPERATOR_ID_REGEX_exec_cons.
    destruct (operator_id_here _) as [rest|] eqn:Hhere.
    + apply operator_id_here_shape in Hhere as (p & Hp & Hps).
      specialize (Hmin [] p rest Hp Hps). simpl in Hmin. lia.
    + apply IH. intros pre' p' suf' Hs' Hp'.
      specialize (Hmin (x :: pre') p' suf'). simpl in Hmin.
      rewrite Hs' in Hmin. specialize (Hmin eq_refl Hp'). lia.
Qed.

Lemma matches_operator_id_pattern_exec (s : jsstring) :
  matches_operator_id_pattern s ↔ is_Some (OPERATOR_ID_REGEX_exec s).
Proof.
  split.
  - intros (pre & p & suf & -> & Hp). induction pre as [|x pre IH].
    + exists p. simpl. rewrite (OPERATOR_ID_REGEX_exec_here _ suf)
        by by apply operator_id_here_prefix.
      by rewrite matched_app.
    + cbn [app]. rewrite OPERATOR_ID_REGEX_exec_cons.
      by destruct (operator_id_here _).
  - intros [c Hc].
    apply OPERATOR_ID_REGEX_exec_Some in Hc as [(pre & suf & ->) Hshape].
    by exists pre, c, suf.
Qed.

(** The loop on stations whose candidates are [cs]. *)
Lemma possibleSubOperators_first (l : list IEvseDataRecord.t)
    (cs : list jsstring) :
  Forall2 (fun d c => first_operator_id (IEvseDataRecord.EvseId d) c) l cs →
  possibleSubOperators l =
    (zip_with resolved_with l cs,
     Normal (mjoin (zip_with derived_with l cs))).
Proof.
  intros Hcs.
  assert (Forall2 (fun d c =>
            OPERATOR_ID_REGEX_exec (IEvseDataRecord.EvseId d) = Some c) l cs)
    as Hex.
  { eapply list.Forall2_impl; [exact Hcs|]. intros d c.
    apply first_operator_id_exec. }
  clear Hcs. unfold possibleSubOperators.
  rewrite subOperators_forEach_well_formed.
  - cbn [app]. f_equal; [|f_equal];
      induction Hex as [|d c l cs Hc _ IH]; csimpl; try done.
    + f_equal; [|done].
      unfold spec_resolved_station, resolved_with, candidate.
      by rewrite Hc.
    + rewrite IH. f_equal.
      unfold spec_derived_operators, derived_with, candidate.
      by rewrite Hc.
  - induction Hex as [|d c l cs Hc _ IH]; constructor; [by exists c|done].
Qed.

(** C3, as stated: a station whose identifier matches the pattern, and
    whose candidate "DE*TBB" differs from its nominal operator "DE*TBA",
    keeps "DE*TBA" and gets no operator row when a station before it in the
    batch has an identifier that does not match: the loop throws there. *)
Lemma C3_unmatched_neighbour_counterexample :
  matches_operator_id_pattern
    (IEvseDataRecord.EvseId station_of_sub_operator) ∧
  possibleSubOperators [station_with_malformed_id; station_of_sub_operator] =
    ([station_with_malformed_id; station_of_sub_operator],
     Throw TypeError) ∧
  ¬ station_resolved_by_rule
      [station_with_malformed_id; station_of_sub_operator] 1
      station_of_sub_operator.
Proof.
  split_and!.
  - apply matches_operator_id_pattern_exec. vm_compute. by eexists.
  - vm_compute. reflexivity.
  - intros (c & _ & _ & ops & Hops & _). by vm_compute in Hops.
Qed.

(** C3, amended: in a batch of stations whose identifiers all match the
    operator-id pattern, every station has a first match of the pattern,
    its candidate; the resolution leaves a station whose candidate is its
    nominal operator id as it is and emits nothing for it, and gives any
    other station the candidate as operator id and emits the operator row
    [{id: candidate, name: null, parentId: nominal}] for it, in the order
    of the stations; so the rule holds of every station of the batch. So
    "DE*TBB*E5678" under "DE*TBA" emits
    [{id: "DE*TBB", name: null, parentId: "DE*TBA"}] and moves to
    "DE*TBB", and "DE*TBA*E1234" under "DE*TBA" emits nothing and stays. *)
Theorem C3_sub_operator_resolution (l : list IEvseDataRecord.t) :
  Forall (fun d => matches_operator_id_pattern (IEvseDataRecord.EvseId d)) l →
  (∃ cs, Forall2 (fun d c =>
                    first_operator_id (IEvseDataRecord.EvseId d) c) l cs) ∧
  (∀ cs, Forall2 (fun d c =>
                    first_operator_id (IEvseDataRecord.EvseId d) c) l cs →
         possibleSubOperators l =
           (zip_with resolved_with l cs,
            Normal (mjoin (zip_with derived_with l cs)))) ∧
  (∀ i d, l !! i = Some d → station_resolved_by_rule l i d) ∧
  possibleSubOperators [station_of_sub_operator] =
    ([IEvseDataRecord.set_OperatorId (Some (js "DE*TBB"))
        station_of_sub_operator],
     Normal [{| IOperator.id := js "DE*TBB";
                IOperator.name := None;
                IOperator.parentId := Some (js "DE*TBA") |}]) ∧
  possibleSubOperators [station_of_operator] =
    ([station_of_operator], Normal []).
Proof.
  intros Hl.
  assert (∃ cs, Forall2 (fun d c =>
            first_operator_id (IEvseDataRecord.EvseId d) c) l cs)
    as [cs Hcs].
  { induction Hl as [|d l Hd _ [cs IH]]; [by exists []|].
    apply matches_operator_id_pattern_exec in Hd as [c Hc].
    exists (c :: cs). constructor; [|done].
    by apply OPERATOR_ID_REGEX_exec_first. }
  split_and!.
  - by exists cs.
  - apply possibleSubOperators_first.
  - intros i d Hd.
    destruct (Forall2_lookup_l _ _ _ _ _ Hcs Hd) as (c & Hc & Hfirst).
    exists c. rewrite (possibleSubOperators_first l cs Hcs). cbn [fst snd].
    split_and!; [done| |].
    + apply lookup_zip_with_Some. by exists d, c.
    + eexists. split; [done|]. intros op Hop.
      apply list_elem_of_join. exists (derived_with d c). split; [done|].
      apply elem_of_lookup_zip_with. by exists i, d, c.
  - vm_compute. reflexivity.
  - vm_compute. reflexivity.
Qed.

Lemma C3_sub_operator_resolution_witness :
  possibleSubOperators
    [station_of_sub_operator; station_of_operator;
     station_of_numeric_operator] =
    ([IEvseDataRecord.set_OperatorId (Some (js "DE*TBB"))
        station_of_sub_operator;
      station_of_operator; station_of_numeric_operator],
     Normal [{| IOperator.id := js "DE*TBB";
                IOperator.name := None;
                IOperator.parentId := Some (js "DE*TBA") |}]).
Proof.
  destruct (C3_sub_operator_resolution
              [station_of_sub_operator; station_of_operator;
               station_of_numeric_operator]) as (_ & Hrule & _).
  - repeat constructor; apply matches_operator_id_pattern_exec;
      vm_compute; by eexists.
  - apply (Hrule [js "DE*TBB"; js "DE*TBA"; js "+49*123"]).
    repeat constructor; apply OPERATOR_ID_REGEX_exec_first;
      vm_compute; reflexivity.
Defined.

(** ** Sub-operator resolution, continued *)

(** A list of stations that all carry their candidate as operator id is
    left as it is, and no sub-operator is derived from it. *)
Lemma possibleSubOperators_resolved (l : list IEvseDataRecord.t) :
  Forall (fun d => well_formed_id d ∧
                   IEvseDataRecord.OperatorId d = Some (candidate d)) l →
  possibleSubOperators l = (l, Normal []).
Proof.
  intros Hl. unfold possibleSubOperators.
  rewrite subOperators_forEach_well_formed
    by (eapply list.Forall_impl; [exact Hl|by intros d [? _]]).
  f_equal.
  - induction Hl as [|d l [_ Hd] _ IH]; [done|]. csimpl.
    unfold spec_resolved_station at 1. rewrite decide_True by done.
    by rewrite IH.
  - f_equal. induction Hl as [|d l [_ Hd] _ IH]; [done|].
    rewrite bind_cons. unfold spec_derived_operators at 1.
    rewrite decide_True by done. exact IH.
Qed.

Lemma spec_resolved_station_resolved d :
  well_formed_id d →
  well_formed_id (spec_resolved_station d) ∧
  IEvseDataRecord.OperatorId (spec_resolved_station d) =
    Some (candidate (spec_resolved_station d)).
Proof.
  intros Hd. unfold spec_resolved_station.
  destruct (decide _) as [Heq|Hne]; [done|].
  by destruct d.
Qed.

(** X3: A station whose identifier starts with the id of the operator it is
    listed under is never moved to a sub-operator: on a list of such
    stations the resolution changes nothing and derives no operator. *)
Theorem possibleSubOperators_own_operator (l : list IEvseDataRecord.t) :
  Forall station_of_own_operator l →
  possibleSubOperators l = (l, Normal []).
Proof.
  intros Hl. apply possibleSubOperators_resolved.
  eapply list.Forall_impl; [exact Hl|].
  intros d (p & rest & Hp & Hnom & Hid).
  assert (OPERATOR_ID_REGEX_exec (p ++ rest) = Some p) as Hexec.
  { rewrite (OPERATOR_ID_REGEX_exec_here _ rest)
      by by apply operator_id_here_prefix.
    by rewrite matched_app. }
  unfold well_formed_id, candidate. rewrite Hid, Hexec. by split.
Qed.

Lemma possibleSubOperators_own_operator_witness :
  possibleSubOperators [station_of_operator; station_of_numeric_operator] =
  ([station_of_operator; station_of_numeric_operator], Normal []).
Proof.
  apply (possibleSubOperators_own_operator
           [station_of_operator; station_of_numeric_operator]).
  repeat constructor.
  - exists (js "DE*TBA"), (js "*E1234"). split_and!; [|done|done].
    left. exists 68, 69, 84, 66, 65. split_and!; [by right|done..].
  - exists (js "+49*123"), (js "*E77"). split_and!; [|done|done].
    apply numeric_operator_id_shape.
Defined.

(** X4: The resolution is idempotent: run again on the records it left, it
    changes nothing and derives no further operator. *)
Theorem possibleSubOperators_idempotent (l : list IEvseDataRecord.t)
    (ops : list IOperator.t) :
  (possibleSubOperators l).2 = Normal ops →
  possibleSubOperators (possibleSubOperators l).1 =
  ((possibleSubOperators l).1, Normal []).
Proof.
  intros Hops. pose proof (subOperators_forEach_Normal _ _ _ Hops) as Hwf.
  unfold possibleSubOperators at 2 3.
  rewrite (subOperators_forEach_well_formed l [] Hwf). cbn [fst].
  apply possibleSubOperators_resolved.
  apply Forall_fmap. eapply list.Forall_impl; [exact Hwf|].
  intros d Hd. by apply spec_resolved_station_resolved.
Qed.

Lemma possibleSubOperators_idempotent_witness :
  possibleSubOperators
    (possibleSubOperators [station_of_sub_operator; station_of_operator]).1 =
  ((possibleSubOperators [station_of_sub_operator; station_of_operator]).1,
   Normal []).
Proof.
  apply (possibleSubOperators_idempotent
           [station_of_sub_operator; station_of_operator]
           [{| IOperator.id := js "DE*TBB"; IOperator.name := None;
               IOperator.parentId := Some (js "DE*TBA") |}]).
  vm_compute. reflexivity.
Defined.

(** X5: The derived sub-operators come station by station, in the order of
    the stations and at most one for each station; the operator derived
    from a station has no name, has the operator id of that station as
    parent and is not its own parent, and its id has the shape of an
    operator id and is the candidate of that station, the first match of
    the pattern in its identifier. *)
Theorem possibleSubOperators_derived (l : list IEvseDataRecord.t)
    (ops : list IOperator.t) :
  (possibleSubOperators l).2 = Normal ops →
  ∃ per_station : list (list IOperator.t),
    ops = mjoin per_station ∧
    Forall2
      (fun d rows =>
         (length rows ≤ 1)%nat ∧
         Forall (fun op =>
                   IOperator.name op = None ∧
                   IOperator.parentId op = IEvseDataRecord.OperatorId d ∧
                   IOperator.parentId op ≠ Some (IOperator.id op) ∧
                   operator_id_shape (IOperator.id op) ∧
                   first_operator_id (IEvseDataRecord.EvseId d)
                     (IOperator.id op) ∧
                   OPERATOR_ID_REGEX_exec (IEvseDataRecord.EvseId d) =
                     Some (IOperator.id op)) rows)
      l per_station.
Proof.
  intros Hops. pose proof (subOperators_forEach_Normal _ _ _ Hops) as Hwf.
  unfold possibleSubOperators in Hops.
  rewrite (subOperators_forEach_well_formed l [] Hwf) in Hops.
  injection Hops as <-.
  exists (spec_derived_operators <$> l). split.
  - clear Hwf. induction l as [|d l IH]; [done|].
    rewrite bind_cons, fmap_cons. cbn [mjoin list_join]. by rewrite IH.
  - apply Forall2_fmap_r, Forall_Forall2_diag.
    eapply list.Forall_impl; [exact Hwf|].
    intros d [c Hc].
    assert (candidate d = c) as Hcand by (unfold candidate; by rewrite Hc).
    unfold compose, spec_derived_operators. rewrite Hcand.
    destruct (decide _) as [|Hne]; [split; [simpl; lia|constructor]|].
    split; [simpl; lia|]. constructor; [|constructor]. cbn.
    split_and!; [done|done|done| |by apply OPERATOR_ID_REGEX_exec_first
                |done].
    by apply OPERATOR_ID_REGEX_exec_Some in Hc as [_ ?].
Qed.

Lemma possibleSubOperators_derived_witness :
  ∃ per_station : list (list IOperator.t),
    [{| IOperator.id := js "DE*TBB"; IOperator.name := None;
        IOperator.parentId := Some (js "DE*TBA") |}] = mjoin per_station ∧
    Forall2
      (fun d rows =>
         (length rows ≤ 1)%nat ∧
         Forall (fun op =>
                   IOperator.name op = None ∧
                   IOperator.parentId op = IEvseDataRecord.OperatorId d ∧
                   IOperator.parentId op ≠ Some (IOperator.id op) ∧
                   operator_id_shape (IOperator.id op) ∧
                   first_operator_id (IEvseDataRecord.EvseId d)
                     (IOperator.id op) ∧
                   OPERATOR_ID_REGEX_exec (IEvseDataRecord.EvseId d) =
                     Some (IOperator.id op)) rows)
      [station_of_sub_operator; station_of_operator] per_station.
Proof.
  apply (possibleSubOperators_derived
           [station_of_sub_operator; station_of_operator]).
  vm_compute. reflexivity.
Defined.

Lemma subOperators_forEach_throw_at (l1 l2 : list IEvseDataRecord.t)
    (d : IEvseDataRecord.t) (subOperators : list IOperator.t) :
  Forall well_formed_id l1 →
  OPERATOR_ID_REGEX_exec (IEvseDataRecord.EvseId d) = None →
  subOperators_forEach (l1 ++ d :: l2) subOperators =
  ((spec_resolved_station <$> l1) ++ d :: l2, Throw TypeError).
Proof.
  intros Hl1 Hd. revert subOperators.
  induction Hl1 as [|d1 l1 [c Hc] _ IH]; intros subOperators.
  - cbn [app fmap list_fmap subOperators_forEach]. by rewrite Hd.
  - rewrite fmap_cons, <- !app_comm_cons. cbn [subOperators_forEach].
    assert (candidate d1 = c) as Hcand by (unfold candidate; by rewrite Hc).
    unfold spec_resolved_station at 1. rewrite Hcand, Hc.
    destruct (decide (IEvseDataRecord.OperatorId d1 ≠ Some c)) as [Hne|Heq].
    + rewrite IH. by rewrite decide_False by done.
    + apply dec_stable in Heq. rewrite IH. by rewrite decide_True by done.
Qed.

(** X6: When the loop throws at the first station with a malformed
    identifier, the stations before it have been given their candidates
    already, that station and those after it are untouched, and the
    sub-operators collected so far are not returned. *)
Theorem possibleSubOperators_throws_midway (l1 l2 : list IEvseDataRecord.t)
    (d : IEvseDataRecord.t) :
  Forall well_formed_id l1 →
  OPERATOR_ID_REGEX_exec (IEvseDataRecord.EvseId d) = None →
  possibleSubOperators (l1 ++ d :: l2) =
  ((spec_resolved_station <$> l1) ++ d :: l2, Throw TypeError).
Proof. intros. by apply subOperators_forEach_throw_at. Qed.

Lemma possibleSubOperators_throws_midway_witness :
  possibleSubOperators
    ([station_of_sub_operator] ++
       station_with_malformed_id :: [station_of_sub_operator]) =
  ([IEvseDataRecord.set_OperatorId (Some (js "DE*TBB"))
      station_of_sub_operator;
    station_with_malformed_id; station_of_sub_operator],
   Throw TypeError).
Proof.
  apply (possibleSubOperators_throws_midway [station_of_sub_operator]
           [station_of_sub_operator] station_with_malformed_id).
  - repeat constructor. vm_compute. eexists. reflexivity.
  - vm_compute. reflexivity.
Defined.

(** ** Localization extraction, continued *)

Lemma trim_start_suffix s : ∃ a, s = a ++ trim_start s.
Proof.
  induction s as [|c s [a IH]]; [by exists []|]. simpl.
  destruct (is_white_space c); [|by exists []].
  exists (c :: a). by rewrite IH at 1.
Qed.

(** Trimming cuts a string at both ends only. *)
Lemma trim_substring s : ∃ a b, s = a ++ trim s ++ b.
Proof.
  unfold trim. destruct (trim_start_suffix s) as [a Ha].
  destruct (trim_start_suffix (reverse (trim_start s))) as [b Hb].
  exists a, (reverse b). rewrite Ha at 1. f_equal.
  rewrite <- reverse_app, <- Hb. by rewrite reverse_involutive.
Qed.

(** The lazy [.*?] stops at the first delimiter: what it captures does
    not contain one. *)
Lemma lazy_dots_delimiter_first s cap rest :
  lazy_dots_delimiter s = Some (cap, rest) → ¬ substring_of DELIMITER cap.
Proof.
  revert cap. induction s as [|c s IH]; intros cap; simpl.
  - destruct (delimiter []) eqn:E; [|done].
    apply delimiter_Some in E. done.
  - destruct (delimiter (c :: s)) as [r|] eqn:E.
    + intros [= <- <-] (pre & suf & Hcap). by destruct pre.
    + destruct (is_line_terminator c) eqn:Hc; [done|].
      destruct (lazy_dots_delimiter s) as [[cap' rest']|] eqn:El; [|done].
      simpl. intros [= <- <-] (pre & suf & Hcap).
      destruct pre as [|c' pre].
      * apply lazy_dots_delimiter_Some in El as [-> _].
        simpl in Hcap. injection Hcap as -> ->. by simpl in E.
      * injection Hcap as -> ->. apply (IH _ eq_refl). by exists pre, suf.
Qed.

Lemma localized_info_search_first s pos m :
  localized_info_search s pos = Some m →
  ¬ substring_of DELIMITER (group2 m).
Proof.
  revert pos. induction s as [|c s IH]; intros pos; simpl.
  - destruct (localized_info_here []) as [[[g1 g2] r]|] eqn:E; [|done].
    apply localized_info_here_Some in E as (E & _). by destruct g1.
  - destruct (localized_info_here (c :: s)) as [[[g1 g2] r]|] eqn:E;
      [|by apply IH].
    intros [= <-]. simpl. unfold localized_info_here in E.
    destruct (class_n is_upper 3 (c :: s)) as [s1|]; [|done]. simpl in E.
    destruct (lit COLON s1) as [s2|]; [|done]. simpl in E.
    destruct (lazy_dots_delimiter s2) as [[cap r']|] eqn:El; [|done].
    simpl in E. injection E as _ <- _.
    by eapply lazy_dots_delimiter_first.
Qed.

Lemma segments_from_text fuel re info m :
  m ∈ segments_from fuel re info →
  ¬ substring_of DELIMITER (group2 m) ∧
  Forall (fun c => is_line_terminator c = false) (group2 m).
Proof.
  revert re. induction fuel as [|fuel IH]; intros re; simpl.
  - by intros ?%elem_of_nil.
  - destruct (LOCALIZED_INFO_REGEX_exec re info) as [[m'|] re'] eqn:E;
      [|by intros ?%elem_of_nil].
    intros [->|Hin]%elem_of_cons; [|by eapply IH].
    split.
    + unfold LOCALIZED_INFO_REGEX_exec in E.
      destruct (decide _); [|done].
      destruct (localized_info_search _ _) as [m''|] eqn:Es; [|done].
      injection E as -> _. by eapply localized_info_search_first.
    + by apply LOCALIZED_INFO_REGEX_exec_Some in E as (_ & _ & _ & _ & ?).
Qed.

Lemma backfill_rows_elem h d a name info r :
  r ∈ backfill_rows h d a name info →
  r = evseTr h a (IEvseDataRecord.EvseId d) name None ∧
  anchor_regex_test a info = false ∧ non_blank name = true.
Proof.
  unfold backfill_rows.
  destruct (anchor_regex_test a info); simpl; [by intros ?%elem_of_nil|].
  destruct (non_blank name); [|by intros ?%elem_of_nil].
  by intros ->%list_elem_of_singleton.
Qed.

(** The rows of a station, by origin. *)
Lemma station_rows_elem h d r :
  r ∈ station_rows h d →
  truthy (IEvseDataRecord.EnAdditionalInfo d) = true ∧
  ((∃ m, m ∈ segments (default [] (IEvseDataRecord.EnAdditionalInfo d)) ∧
         r = segment_row h d m) ∨
   (r = evseTr h EN_CHARGING_STATION_NAME_ALPHA_3 (IEvseDataRecord.EvseId d)
          (IEvseDataRecord.EnChargingStationName d) None ∧
    non_blank (IEvseDataRecord.EnChargingStationName d) = true) ∨
   (r = evseTr h CHARGING_STATION_NAME_ALPHA_3 (IEvseDataRecord.EvseId d)
          (IEvseDataRecord.ChargingStationName d) None ∧
    non_blank (IEvseDataRecord.ChargingStationName d) = true)).
Proof.
  unfold station_rows. destruct (truthy _); [|by intros ?%elem_of_nil].
  rewrite !elem_of_app. split; [done|].
  destruct H as [(m & -> & Hm)%list_elem_of_fmap
                |[(-> & _ & Hn)%backfill_rows_elem
                 |(-> & _ & Hn)%backfill_rows_elem]].
  - left. by exists m.
  - right. by left.
  - right. by right.
Qed.

(** X7: Stations without packed field, or with an empty one, contribute
    nothing: the extraction gives the rows of the stations that have a
    non-empty packed field, whatever the names of the others. *)
Theorem getInternationalData_skips_stations_without_packed_field
    (h : DataImportHelper) (l : list IEvseDataRecord.t) :
  getInternationalData h l =
  getInternationalData h
    (filter (fun d => truthy (IEvseDataRecord.EnAdditionalInfo d) = true) l).
Proof.
  rewrite !getInternationalData_rows. do 2 f_equal.
  induction l as [|d l IH]; [done|].
  rewrite bind_cons, filter_cons. case_decide as Hd.
  - by rewrite bind_cons, IH.
  - rewrite IH. unfold station_rows.
    by destruct (truthy (IEvseDataRecord.EnAdditionalInfo d)).
Qed.

(** X8: The additional info of a translation row never contains the delimiter
    "|||" nor a line terminator. *)
Theorem extracted_additionalInfo_has_no_delimiter (h : DataImportHelper)
    (l : list IEvseDataRecord.t) :
  Forall (fun r =>
            match IEVSE_tr.additionalInfo r with
            | Some text =>
                ¬ substring_of DELIMITER text ∧
                Forall (fun c => is_line_terminator c = false) text
            | None => True
            end) (extracted h l).
Proof.
  rewrite extracted_rows. apply list.Forall_forall.
  intros r (d & Hr & _)%list_elem_of_bind.
  apply station_rows_elem in Hr as [_ [(m & Hm & ->)|[[-> _]|[-> _]]]];
    [|done..].
  cbn. apply segments_from_text in Hm as [Hdel Hlt].
  destruct (trim_substring (group2 m)) as (a & b & Htrim).
  split.
  - intros (pre & suf & Hsub). apply Hdel.
    exists (a ++ pre), (suf ++ b). rewrite Htrim at 1. rewrite Hsub.
    by rewrite <- !(assoc_L (++)).
  - rewrite Htrim in Hlt.
    by apply Forall_app in Hlt as [_ [? _]%Forall_app].
Qed.

Lemma segments_from_substring fuel re info m :
  m ∈ segments_from fuel re info →
  alpha3_code (group1 m) ∧
  substring_of (group1 m ++ COLON :: group2 m ++ DELIMITER) info.
Proof.
  revert re. induction fuel as [|fuel IH]; intros re; simpl.
  - by intros ?%elem_of_nil.
  - destruct (LOCALIZED_INFO_REGEX_exec re info) as [[m'|] re'] eqn:E;
      [|by intros ?%elem_of_nil].
    intros [->|Hin]%elem_of_cons; [|by eapply IH].
    apply LOCALIZED_INFO_REGEX_exec_Some in E
      as (_ & _ & (pre & rest & ->) & Hcode & _).
    split; [done|]. exists pre, rest.
    by rewrite <- !(assoc_L (++)), <- app_comm_cons, <- !(assoc_L (++)).
Qed.

(** X10: Every translation row belongs to a station of the list that has a
    non-empty packed field, and is a segment row or a backfill row. A
    segment row stands for a three-letter code that the packed field
    holds, followed by a colon, a text without delimiter and a delimiter:
    it has the language of that code and, as additional info, that text
    trimmed, which may be the empty string. A backfill row has no
    additional info, a non-blank name and the language of one of the two
    anchor codes. *)
Theorem extracted_rows_belong_to_stations (h : DataImportHelper)
    (l : list IEvseDataRecord.t) :
  Forall (fun r =>
            ∃ d info,
              d ∈ l ∧
              IEVSE_tr.evseId r = IEvseDataRecord.EvseId d ∧
              IEvseDataRecord.EnAdditionalInfo d = Some info ∧ info ≠ [] ∧
              ((∃ code text,
                  alpha3_code code ∧
                  substring_of (code ++ COLON :: text ++ DELIMITER) info ∧
                  ¬ substring_of DELIMITER text ∧
                  IEVSE_tr.languageCode r = languageCodeOf h code ∧
                  IEVSE_tr.additionalInfo r = Some (trim text)) ∨
               (IEVSE_tr.additionalInfo r = None ∧
                non_blank (IEVSE_tr.chargingStationName r) = true ∧
                (IEVSE_tr.languageCode r =
                   languageCodeOf h EN_CHARGING_STATION_NAME_ALPHA_3 ∨
                 IEVSE_tr.languageCode r =
                   languageCodeOf h CHARGING_STATION_NAME_ALPHA_3))))
         (extracted h l).
Proof.
  rewrite extracted_rows. apply list.Forall_forall.
  intros r (d & Hr & Hd)%list_elem_of_bind.
  apply station_rows_elem in Hr as [Hinfo Hr].
  destruct (IEvseDataRecord.EnAdditionalInfo d) as [info|] eqn:Einfo;
    [|done].
  exists d, info. cbn [default] in Hr.
  assert (info ≠ []) as Hne by (by destruct info).
  destruct Hr as [(m & Hm & ->)|[[-> Hn]|[-> Hn]]]; cbn;
    split_and!; try done.
  - left. exists (group1 m), (group2 m).
    pose proof (segments_from_substring _ _ _ _ Hm) as [Hcode Hsub].
    pose proof (segments_from_text _ _ _ _ Hm) as [Hdel _].
    by split_and!.
  - right. split_and!; [done|done|by left].
  - right. split_and!; [done|done|by right].
Qed.

Lemma anchor_regex_test_substring a s :
  anchor_regex_test a s = true → substring_of (a ++ [COLON]) s.
Proof.
  assert (∀ s0, anchor_here a s0 = true → substring_of (a ++ [COLON]) s0)
    as Hhere.
  { intros s0. unfold anchor_here.
    destruct (lits a s0) as [s1|] eqn:E1; [|done]. simpl.
    destruct (lit COLON s1) as [s2|] eqn:E2; [|done]. intros _.
    apply lits_Some in E1 as ->. apply lit_Some in E2 as ->.
    exists [], s2. simpl. by rewrite <- (assoc_L (++)). }
  induction s as [|c s IH].
  - simpl. rewrite orb_false_r. apply Hhere.
  - rewrite anchor_regex_test_cons.
    intros [H|H]%orb_true_iff; [by apply Hhere|].
    destruct (IH H) as (pre & suf & ->). by exists (c :: pre), suf.
Qed.

(** X11: Backfill: a station with a non-empty packed field in which the text
    "GBR:" does not occur and with a non-blank English name gets a row
    for GBR with that name and no additional info; the same holds for
    "DEU:" and the primary name. *)
Theorem extracted_backfill_rows (h : DataImportHelper)
    (d : IEvseDataRecord.t) (info : jsstring) :
  IEvseDataRecord.EnAdditionalInfo d = Some info →
  info ≠ [] →
  (¬ substring_of (js "GBR:") info →
   non_blank (IEvseDataRecord.EnChargingStationName d) = true →
   evseTr h (js "GBR") (IEvseDataRecord.EvseId d)
     (IEvseDataRecord.EnChargingStationName d) None ∈ extracted h [d]) ∧
  (¬ substring_of (js "DEU:") info →
   non_blank (IEvseDataRecord.ChargingStationName d) = true →
   evseTr h (js "DEU") (IEvseDataRecord.EvseId d)
     (IEvseDataRecord.ChargingStationName d) None ∈ extracted h [d]).
Proof.
  intros Hinfo Hne. rewrite extracted_rows, bind_cons.
  change ([] ≫= station_rows h) with (@nil IEVSE_tr.t).
  rewrite (right_id_L [] (++)). unfold station_rows. rewrite Hinfo.
  destruct info as [|c info]; [done|]. cbn [truthy default].
  rewrite !elem_of_app. unfold backfill_rows.
  split; intros Hsub Hname; right.
  - left. rewrite Hname.
    destruct (anchor_regex_test _ _) eqn:Htest.
    + by apply anchor_regex_test_substring in Htest.
    + by apply list_elem_of_singleton.
  - right. rewrite Hname.
    destruct (anchor_regex_test _ _) eqn:Htest.
    + by apply anchor_regex_test_substring in Htest.
    + by apply list_elem_of_singleton.
Qed.

Lemma has_substring_complete c s :
  substring_of c s → has_substring c s = true.
Proof.
  intros (pre & suf & ->). induction pre as [|x pre IH].
  - assert (is_Some (lits c ([] ++ c ++ suf))) as Hc.
    { exists suf. by apply lits_Some. }
    destruct ([] ++ c ++ suf); simpl; by rewrite bool_decide_eq_true_2.
  - simpl. rewrite IH. apply orb_true_r.
Qed.

Lemma extracted_backfill_rows_witness :
  let d := station (js "DE*TBA*E1234") (Some (js "DE*TBA"))
             (Some (js "StationName-DE")) (Some (js "StationName-EN"))
             (Some (js "FRA:Objet|||")) in
  tr_row (js "DE*TBA*E1234") (js "en") (Some (js "StationName-EN")) None
    ∈ extracted sample_helper [d] ∧
  tr_row (js "DE*TBA*E1234") (js "de") (Some (js "StationName-DE")) None
    ∈ extracted sample_helper [d].
Proof.
  intros d.
  destruct (extracted_backfill_rows sample_helper d (js "FRA:Objet|||"))
    as [Hen Hde]; [reflexivity|done|].
  split.
  - apply Hen; [|reflexivity].
    intros Hsub%has_substring_complete. by vm_compute in Hsub.
  - apply Hde; [|reflexivity].
    intros Hsub%has_substring_complete. by vm_compute in Hsub.
Defined.

(** ** The catalogs *)

Lemma cached_or_fetch_Fulfilled query_fails c w m w' :
  cached_or_fetch query_fails c w = Some (Fulfilled m, w') →
  m = default (tbl_catalog (committed w) c) (caches w c) ∧
  caches w' = caches w ∧ committed w' = committed w ∧
  pending w' = pending w.
Proof.
  unfold cached_or_fetch, fetchAll, query.
  destruct (caches w c) as [m0|]; [by intros [= <- <-]|].
  destruct (query_fails _); [done|]. by intros [= <- <-].
Qed.

Lemma cached_or_fetch_Rejected query_fails c w e w' :
  cached_or_fetch query_fails c w = Some (Rejected e, w') →
  caches w' = caches w.
Proof.
  unfold cached_or_fetch, fetchAll, query.
  destruct (caches w c) as [m0|]; [done|].
  destruct (query_fails _); by intros [= <- <-].
Qed.

Lemma cached_or_fetch_cached query_fails c w m :
  caches w c = Some m →
  cached_or_fetch query_fails c w = Some (Fulfilled m, w).
Proof. intros Hc. unfold cached_or_fetch. by rewrite Hc. Qed.

(** A fulfilled load leaves every catalog cached: with the value that was
    cached before, or else with the rows fetched from the store. *)
Lemma loadDependentData_Fulfilled query_fails w w' :
  loadDependentData query_fails w = Some (Fulfilled tt, w') →
  (∀ c, caches w' c =
        Some (default (tbl_catalog (committed w) c) (caches w c))) ∧
  committed w' = committed w ∧ pending w' = pending w.
Proof.
  unfold loadDependentData. intros Hload.
  repeat (apply and_then_Fulfilled in Hload as (? & ? & Hc & Hload);
          apply cached_or_fetch_Fulfilled in Hc as (-> & ? & ? & ?)).
  injection Hload as <-. cbn. split_and!; [|congruence..].
  intros []; f_equal; congruence.
Qed.

(** X12: The catalogs are fetched once per importer: after a fulfilled load, a
    further load sends no query and is fulfilled whatever queries would
    fail, with the same catalogs. *)
Theorem loadDependentData_fetches_once (query_fails query_fails' : nat → bool)
    (w w1 : World) :
  loadDependentData query_fails w = Some (Fulfilled tt, w1) →
  ∃ w2,
    loadDependentData query_fails' w1 = Some (Fulfilled tt, w2) ∧
    issued w2 = issued w1 ∧
    committed w2 = committed w1 ∧
    ∀ c, caches w2 c = caches w1 c.
Proof.
  intros (Hcaches & _ & _)%loadDependentData_Fulfilled.
  eexists. split_and!.
  - unfold loadDependentData, and_then.
    rewrite !(cached_or_fetch_cached _ _ _ _ (Hcaches _)). reflexivity.
  - done.
  - done.
  - intros []; cbn; by rewrite Hcaches.
Qed.

Lemma loadDependentData_fetches_once_witness :
  ∃ w1 w2,
    loadDependentData no_fault sample_world = Some (Fulfilled tt, w1) ∧
    loadDependentData (fun _ => true) w1 = Some (Fulfilled tt, w2) ∧
    issued w2 = issued w1.
Proof.
  eexists _.
  assert (∀ (P : Prop) (Q : World → Prop),
            P → (P → ∃ w2, Q w2) → ∃ w2, P ∧ Q w2) as Hcut.
  { intros P Q HP HQ. destruct (HQ HP) as [w2 ?]. by exists w2. }
  apply Hcut.
  - vm_compute. reflexivity.
  - intros Hload.
    destruct (loadDependentData_fetches_once no_fault (fun _ => true)
                sample_world _ Hload) as (w2 & H2 & Hissued & _).
    by exists w2.
Defined.

(** X13: A rejected load caches nothing: the catalogs fetched before the
    failing query are dropped, and the store is as it was. *)
Theorem loadDependentData_Rejected (query_fails : nat → bool)
    (w w' : World) (e : Error) :
  loadDependentData query_fails w = Some (Rejected e, w') →
  caches w' = caches w ∧ committed w' = committed w.
Proof.
  intros Hload. split;
    [|by eapply keeps_committed_loadDependentData].
  unfold loadDependentData in Hload.
  repeat (apply and_then_Rejected in Hload
            as [Hc|(? & ? & Hc & Hload)];
          [apply cached_or_fetch_Rejected in Hc; congruence|];
          apply cached_or_fetch_Fulfilled in Hc as (_ & ? & _ & _)).
  done.
Qed.

Lemma loadDependentData_Rejected_witness :
  ∃ w',
    loadDependentData (fault_at 6) sample_world =
      Some (Rejected PersistenceFailure, w') ∧
    caches w' = caches sample_world ∧
    committed w' = committed sample_world.
Proof.
  eexists.
  assert (∀ (P Q : Prop), P → (P → Q) → P ∧ Q) as Hcut by tauto.
  apply Hcut.
  - vm_compute. reflexivity.
  - intros Hload.
    exact (loadDependentData_Rejected (fault_at 6) sample_world _ _ Hload).
Defined.

(** ** The join tables *)

(** X14: When none of the six calls that the relational step makes to the
    helper, each with the records and the cached catalog of its category,
    gives a row, the step sends no query at all: it is fulfilled whatever
    queries would fail, and leaves the world as it is. *)
Theorem processEVSERelationalData_without_rows (h : DataImportHelper)
    (query_fails : nat → bool) (l : list IEvseDataRecord.t) (trx : Knex)
    (w : World)
    (authenticationModes chargingFacilities chargingModes paymentOptions
       plugs valueAddedServices : list JsValue) :
  caches w Catalog.AuthenticationMode = Some authenticationModes →
  caches w Catalog.ChargingFacility = Some chargingFacilities →
  caches w Catalog.ChargingMode = Some chargingModes →
  caches w Catalog.PaymentOption = Some paymentOptions →
  caches w Catalog.Plug = Some plugs →
  caches w Catalog.ValueAddedService = Some valueAddedServices →
  getEvseRelationByEvseData h l authenticationModes
    (js "authenticationModeId")
    (fun d => options_of "AuthenticationMode"
                (IEvseDataRecord.AuthenticationModes d)) = [] →
  getChargingFacilitiesByEvseData h l chargingFacilities = [] →
  getEvseRelationByEvseData h l chargingModes (js "chargingModeId")
    (fun d => options_of "ChargingMode"
                (IEvseDataRecord.ChargingModes d)) = [] →
  getEvseRelationByEvseData h l paymentOptions (js "paymentOptionId")
    (fun d => options_of "PaymentOption"
                (IEvseDataRecord.PaymentOptions d)) = [] →
  getEvseRelationByEvseData h l plugs (js "plugId")
    (fun d => options_of "Plug" (IEvseDataRecord.Plugs d)) = [] →
  getEvseRelationByEvseData h l valueAddedServices
    (js "valueAddedServiceId")
    (fun d => options_of "ValueAddedService"
                (IEvseDataRecord.ValueAddedServices d)) = [] →
  processEVSERelationalData h query_fails l trx w = Some (Fulfilled tt, w).
Proof.
  intros Ham Hcf Hcm Hpo Hpl Hvas Ram Rcf Rcm Rpo Rpl Rvas.
  assert (∀ c m, caches w c = Some m → models c w = Some (Fulfilled m, w))
    as Hmodels.
  { intros c m Hm. unfold models. by rewrite Hm. }
  apply Hmodels in Ham, Hcf, Hcm, Hpo, Hpl, Hvas.
  unfold processEVSERelationalData, and_then.
  rewrite Ham, Hcf, Hcm, Hpo, Hpl, Hvas.
  by rewrite Ram, Rcf, Rcm, Rpo, Rpl, Rvas.
Qed.

Lemma processEVSERelationalData_without_rows_witness :
  processEVSERelationalData catalog_helper (fun _ => true)
    [station_with_unknown_plug; station_of_operator] Trx catalog_world =
  Some (Fulfilled tt, catalog_world).
Proof.
  set (catalog := [JsObject [(js "id", JsNumber 1);
                             (js "name", JsString (js "Type 2"))]]).
  apply (processEVSERelationalData_without_rows catalog_helper
           (fun _ => true) [station_with_unknown_plug; station_of_operator]
           Trx catalog_world
           catalog catalog catalog catalog catalog catalog);
    vm_compute; reflexivity.
Defined.

(** ** Failed runs *)

Lemma keeps_committed_processOperatorData_steps query_fails operators :
  keeps_committed
    (and_then (delete_Operator query_fails Trx) (fun _ =>
     insertOrUpdate_Operator query_fails Trx operators)).
Proof.
  apply keeps_committed_and_then; [apply keeps_committed_query_Trx|].
  intros _. apply keeps_committed_query_Trx.
Qed.

(** X15: A rejected run never changes the station rows, the translation rows
    or the join rows of the store; its operator rows are those of before
    the run, or those of the feed when the operator phase was committed
    before the failure. *)
Theorem execute_Rejected (h : DataImportHelper) (query_fails : nat → bool)
    (od : list IOperatorEvseData.t) (w w' : World) (e : Error) :
  execute h query_fails od w = Some (Rejected e, w') →
  tbl_EVSE (committed w') = tbl_EVSE (committed w) ∧
  tbl_EVSE_tr (committed w') = tbl_EVSE_tr (committed w) ∧
  tbl_join (committed w') = tbl_join (committed w) ∧
  (tbl_Operator (committed w') = tbl_Operator (committed w) ∨
   tbl_Operator (committed w') =
     upsert IOperator.id (mapOperatorDataToOperators od) ∅).
Proof.
  unfold execute.
  intros [Hload|([] & w0 & Hload & Hrun)]%and_then_Rejected.
  { apply keeps_committed_loadDependentData in Hload. rewrite Hload.
    split_and!; [done..|by left]. }
  apply keeps_committed_loadDependentData in Hload. rewrite <- Hload.
  apply and_then_Rejected in Hrun as [Hop|([] & w1 & Hop & Hst)].
  { unfold processOperatorData in Hop.
    apply transaction_Rejected in Hop as [-> _];
      [|apply keeps_committed_processOperatorData_steps].
    split_and!; [done..|by left]. }
  apply processOperatorData_Fulfilled in Hop as (HO & HE & HT & HJ).
  unfold processEvseData in Hst.
  apply transaction_Rejected in Hst as [-> _];
    [|apply keeps_committed_processEvseData_steps].
  split_and!; [done..|by right].
Qed.

Lemma execute_Rejected_witness :
  ∃ w',
    execute sample_helper (fault_at 13) sample_feed sample_world =
      Some (Rejected PersistenceFailure, w') ∧
    tbl_EVSE (committed w') = tbl_EVSE (committed sample_world) ∧
    tbl_EVSE_tr (committed w') = tbl_EVSE_tr (committed sample_world).
Proof.
  eexists.
  assert (∀ (P Q : Prop), P → (P → Q) → P ∧ Q) as Hcut by tauto.
  apply Hcut.
  - vm_compute. reflexivity.
  - intros Hrun.
    destruct (execute_Rejected sample_helper (fault_at 13) sample_feed
                sample_world _ _ Hrun) as (HE & HT & _).
    by split.
Defined.

(** ** Fulfilled runs *)

Lemma upsert_is_Some `{Countable K} {V} (key : V → K) rows (m : gmap K V) k :
  is_Some (upsert key rows m !! k) ↔ k ∈ key <$> rows ∨ is_Some (m !! k).
Proof.
  unfold upsert. revert m. induction rows as [|x rows IH]; intros m; csimpl.
  - rewrite elem_of_nil. tauto.
  - rewrite IH, lookup_insert_is_Some, elem_of_cons.
    destruct (decide (key x = k)); intuition congruence.
Qed.

Lemma writes_joins_only_and_then {A B} (p : Promise A) (f : A → Promise B) :
  writes_joins_only p → (∀ a, writes_joins_only (f a)) →
  writes_joins_only (and_then p f).
Proof.
  intros Hp Hf w b w' T (a & w1 & Hpw & Hfw)%and_then_Fulfilled HT.
  destruct (Hp _ _ _ _ Hpw HT) as (T1 & HT1 & HO1 & HE1 & HR1).
  destruct (Hf _ _ _ _ _ Hfw HT1) as (T' & HT' & HO & HE & HR).
  exists T'. split_and!; [done|congruence..].
Qed.

Lemma station_rows_set_OperatorId h v d :
  station_rows h (IEvseDataRecord.set_OperatorId v d) = station_rows h d.
Proof. done. Qed.

(** The extraction does not read the operator ids: it gives the same rows
    before and after the resolution. *)
Lemma extracted_possibleSubOperators h l :
  extracted h (possibleSubOperators l).1 = extracted h l.
Proof.
  rewrite !extracted_rows.
  pose proof (subOperators_forEach_frame l []) as Hframe.
  unfold possibleSubOperators.
  induction Hframe as [|d d' l0 l0' Hd _ IH]; [done|].
  rewrite !bind_cons, IH. f_equal.
  rewrite Hd. apply station_rows_set_OperatorId.
Qed.

Lemma EvseId_possibleSubOperators l :
  IEvseDataRecord.EvseId <$> (possibleSubOperators l).1 =
  IEvseDataRecord.EvseId <$> l.
Proof.
  pose proof (subOperators_forEach_frame l []) as Hframe.
  unfold possibleSubOperators.
  induction Hframe as [|d d' l0 l0' Hd _ IH]; [done|].
  csimpl. rewrite IH. f_equal. by rewrite Hd.
Qed.

Lemma foldl_app_bind {A B} (f : A → list B) (l : list A) (acc : list B) :
  foldl (fun acc x => acc ++ f x) acc l = acc ++ (l ≫= f).
Proof.
  revert acc. induction l as [|x l IH]; intros acc; csimpl.
  - by rewrite (right_id_L [] (++)).
  - by rewrite IH, (assoc_L (++)).
Qed.

(** X20: The stations of a feed come operator by operator, in the order of the
    feed, each with the id of the operator it is listed under as
    [OperatorId], whatever [OperatorId] the record had in the feed. *)
Theorem retrieveEvseDataFromOperatorData_by_operator (h : DataImportHelper)
    (od : list IOperatorEvseData.t) :
  retrieveEvseDataFromOperatorData h od =
  od ≫= (fun operatorData =>
           IEvseDataRecord.set_OperatorId
             (Some (IOperatorEvseData.OperatorID operatorData)) <$>
             getArrayByValue_Array h _
               (IOperatorEvseData.EvseDataRecord operatorData)).
Proof.
  unfold retrieveEvseDataFromOperatorData.
  by rewrite (foldl_app_bind
    (fun operatorData =>
       IEvseDataRecord.set_OperatorId
         (Some (IOperatorEvseData.OperatorID operatorData)) <$>
         getArrayByValue_Array h _
           (IOperatorEvseData.EvseDataRecord operatorData))).
Qed.

Section RunFacts.
Variable h : DataImportHelper.
Variable query_fails : nat → bool.

Lemma writes_joins_only_processEVSERelationalData l :
  writes_joins_only (processEVSERelationalData h query_fails l Trx).
Proof.
  assert (∀ c, writes_joins_only (models c)) as Hmodels.
  { intros c w a w' T. unfold models.
    destruct (caches w c); [|done]. intros [= <- <-] HT. by exists T. }
  assert (∀ j rows,
    writes_joins_only (insert_if_any query_fails Trx j rows)) as Hins.
  { intros j [|r rows] w a w' T; simpl.
    - intros [= <- <-] HT. by exists T.
    - intros (T0 & HT0 & _ & HT')%query_Trx_Fulfilled HT.
      eexists. split; [exact HT'|]. by simplify_eq/=. }
  unfold processEVSERelationalData.
  repeat (apply writes_joins_only_and_then;
          [first [apply Hmodels|apply Hins]|intros ?]).
  apply Hins.
Qed.

(** The tables of the transaction after a fulfilled station phase that
    started with the tables [T0]. *)
Lemma processEvseData_steps_tables l w w' T0 :
  processEvseData_steps h query_fails l Trx w = Some (Fulfilled tt, w') →
  pending w = Some T0 →
  ∃ T ops accessibilities,
    pending w' = Some T ∧
    (possibleSubOperators l).2 = Normal ops ∧
    tbl_Operator T = upsert IOperator.id ops (tbl_Operator T0) ∧
    tbl_EVSE T =
      upsert IEVSE.id
        (mapEvseDataToEvses h accessibilities (possibleSubOperators l).1) ∅ ∧
    tbl_EVSE_tr T = upsert row_key (extracted h l) ∅.
Proof.
  unfold processEvseData_steps. intros Hsteps HT0.
  apply and_then_Fulfilled in Hsteps as ([] & wa & Hclear & Hsteps).
  apply query_Trx_Fulfilled in Hclear as (T0' & HT0' & _ & HT1).
  apply and_then_Fulfilled in Hsteps as (l' & wb & Hsub & Hsteps).
  unfold processPossibleSubOperatorsFromEvseData in Hsub.
  apply and_then_Fulfilled in Hsub as (ops & wa' & Hops & Hsub).
  apply of_completion_Fulfilled in Hops as [Hops ->].
  apply and_then_Fulfilled in Hsub as ([] & wb' & Hins & Hres).
  apply query_Trx_Fulfilled in Hins as (T1 & HT1' & _ & HT2).
  injection Hres as <- <-.
  apply and_then_Fulfilled in Hsteps as (acc & wc & Hacc & Hsteps).
  assert (wc = wb') as ->.
  { unfold models in Hacc. destruct (caches wb' _); [|done].
    by injection Hacc. }
  apply and_then_Fulfilled in Hsteps as ([] & wd & Hevse & Htail).
  apply query_Trx_Fulfilled in Hevse as (T2 & HT2' & _ & HT3).
  apply and_then_Fulfilled in Htail as ([] & we & Htr & Hrel).
  unfold processInternationalData in Htr.
  rewrite getInternationalData_rows, <- extracted_rows in Htr.
  apply query_Trx_Fulfilled in Htr as (T3 & HT3' & _ & HT4).
  destruct (writes_joins_only_processEVSERelationalData _ _ _ _ _ Hrel HT4)
    as (T & HT & HO & HE & HR).
  exists T, ops, acc. simplify_eq/=. rewrite HO, HE, HR.
  split_and!; try done. by rewrite extracted_possibleSubOperators.
Qed.

Lemma execute_Fulfilled od w w' :
  execute h query_fails od w = Some (Fulfilled tt, w') →
  ∃ ops accessibilities,
    (possibleSubOperators (retrieveEvseDataFromOperatorData h od)).2 =
      Normal ops ∧
    tbl_Operator (committed w') =
      upsert IOperator.id ops
        (upsert IOperator.id (mapOperatorDataToOperators od) ∅) ∧
    tbl_EVSE (committed w') =
      upsert IEVSE.id
        (mapEvseDataToEvses h accessibilities
           (possibleSubOperators
              (retrieveEvseDataFromOperatorData h od)).1) ∅ ∧
    tbl_EVSE_tr (committed w') =
      upsert row_key
        (extracted h (retrieveEvseDataFromOperatorData h od)) ∅.
Proof.
  unfold execute. intros Hrun.
  apply and_then_Fulfilled in Hrun as ([] & w0 & _ & Hrun).
  apply and_then_Fulfilled in Hrun as ([] & w1 & Hop & Hst).
  apply processOperatorData_Fulfilled in Hop as (HO1 & _).
  unfold processEvseData in Hst.
  apply transaction_Fulfilled in Hst as (w2 & T & Hsteps & HT & Hc & _).
  eapply processEvseData_steps_tables in Hsteps as
    (T' & ops & acc & HT' & Hops & HO & HE & HR); [|done].
  exists ops, acc. rewrite Hc. simplify_eq/=. by rewrite HO, HO1.
Qed.

End RunFacts.

(** X16: After a fulfilled run the store holds the feed and nothing else: the
    station rows are those of the stations of the feed, the translation
    rows those of the extracted rows, and the operator rows those of the
    operators of the feed and of the sub-operators derived from its
    stations; no row of an earlier run is left under another key. *)
Theorem execute_replaces_store (h : DataImportHelper)
    (query_fails : nat → bool) (od : list IOperatorEvseData.t)
    (w w' : World) :
  execute h query_fails od w = Some (Fulfilled tt, w') →
  (∀ k, is_Some (tbl_EVSE (committed w') !! k) ↔
        k ∈ IEvseDataRecord.EvseId <$> retrieveEvseDataFromOperatorData h od) ∧
  (∀ k, is_Some (tbl_EVSE_tr (committed w') !! k) ↔
        k ∈ row_key <$>
              extracted h (retrieveEvseDataFromOperatorData h od)) ∧
  (∀ k, is_Some (tbl_Operator (committed w') !! k) ↔
        k ∈ IOperatorEvseData.OperatorID <$> od ∨
        ∃ ops,
          (possibleSubOperators
             (retrieveEvseDataFromOperatorData h od)).2 = Normal ops ∧
          k ∈ IOperator.id <$> ops).
Proof.
  intros (ops & acc & Hops & HO & HE & HR)%execute_Fulfilled.
  rewrite HO, HE, HR. split_and!; intros k.
  - rewrite upsert_is_Some, lookup_empty, is_Some_alt.
    unfold mapEvseDataToEvses. rewrite <- list_fmap_compose.
    change (IEVSE.id ∘ _) with IEvseDataRecord.EvseId.
    rewrite EvseId_possibleSubOperators. tauto.
  - rewrite upsert_is_Some, lookup_empty, is_Some_alt. tauto.
  - rewrite !upsert_is_Some, lookup_empty, is_Some_alt.
    unfold mapOperatorDataToOperators. rewrite <- list_fmap_compose.
    change (IOperator.id ∘ _) with IOperatorEvseData.OperatorID.
    split.
    + intros [Hk|[Hk|[]]]; [right; by exists ops|by left].
    + intros [Hk|(ops' & Hops' & Hk)]; [right; by left|left].
      rewrite Hops in Hops'. by injection Hops' as ->.
Qed.

Lemma execute_replaces_store_witness :
  ∃ w',
    execute sample_helper no_fault sample_feed sample_world =
      Some (Fulfilled tt, w') ∧
    (∀ k, is_Some (tbl_EVSE (committed w') !! k) ↔
          k ∈ [js "DE*TBB*E5678"; js "DE*TBA*E1234"]) ∧
    tbl_EVSE (committed w') !! js "DE*OLD*E1" = None.
Proof.
  eexists.
  assert (∀ (P Q : Prop), P → (P → Q) → P ∧ Q) as Hcut by tauto.
  apply Hcut.
  - vm_compute. reflexivity.
  - intros Hrun.
    destruct (execute_replaces_store sample_helper no_fault sample_feed
                sample_world _ Hrun) as (HE & _).
    split; [exact HE|].
    apply eq_None_not_Some. rewrite HE.
    intros Hk. vm_compute in Hk.
    repeat (apply elem_of_cons in Hk as [[=]|Hk]). by apply elem_of_nil in Hk.
Defined.

(** X17: After a fulfilled run every translation row of the store belongs to a
    station row of the store. *)
Theorem execute_translations_resolve (h : DataImportHelper)
    (query_fails : nat → bool) (od : list IOperatorEvseData.t)
    (w w' : World) :
  execute h query_fails od w = Some (Fulfilled tt, w') →
  ∀ k r, tbl_EVSE_tr (committed w') !! k = Some r →
         is_Some (tbl_EVSE (committed w') !! IEVSE_tr.evseId r).
Proof.
  intros (ops & acc & Hops & HO & HE & HR)%execute_Fulfilled k r Hr.
  rewrite HR in Hr. rewrite HE.
  apply upsert_lookup in Hr as [Hr|Hr]; [|by rewrite lookup_empty in Hr].
  rewrite extracted_rows in Hr.
  apply list_elem_of_bind in Hr as (d & Hr & Hd).
  apply station_rows_evseId in Hr. rewrite Hr.
  apply upsert_is_Some. left.
  unfold mapEvseDataToEvses. rewrite <- list_fmap_compose.
  change (IEVSE.id ∘ _) with IEvseDataRecord.EvseId.
  rewrite EvseId_possibleSubOperators. by apply list_elem_of_fmap_2.
Qed.

Lemma execute_translations_resolve_witness :
  ∃ w',
    execute sample_helper no_fault sample_feed sample_world =
      Some (Fulfilled tt, w') ∧
    ∀ k r, tbl_EVSE_tr (committed w') !! k = Some r →
           is_Some (tbl_EVSE (committed w') !! IEVSE_tr.evseId r).
Proof.
  eexists.
  assert (∀ (P Q : Prop), P → (P → Q) → P ∧ Q) as Hcut by tauto.
  apply Hcut.
  - vm_compute. reflexivity.
  - intros Hrun.
    exact (execute_translations_resolve sample_helper no_fault sample_feed
             sample_world _ Hrun).
Defined.

(** ** The operator of a station *)

Lemma upsert_lookup_key `{Countable K} {V} (key : V → K) rows (m : gmap K V)
    k r :
  upsert key rows m !! k = Some r →
  (r ∈ rows ∧ key r = k) ∨ m !! k = Some r.
Proof.
  unfold upsert. revert m. induction rows as [|x rows IH]; intros m; simpl.
  - by right.
  - intros Hr. apply IH in Hr as [[Hr Hk]|Hr]; [left; split; [by right|done]|].
    destruct (decide (key x = k)) as [<-|Hne].
    + rewrite lookup_insert_eq in Hr. injection Hr as <-.
      left. split; [by left|done].
    + rewrite lookup_insert_ne in Hr by done. by right.
Qed.

(** X18: After a fulfilled run the operator of every station row is the
    candidate of its identifier: the operator under which the feed lists a
    station has no influence on the operator id that is stored. *)
Theorem execute_operator_by_identifier (h : DataImportHelper)
    (query_fails : nat → bool) (od : list IOperatorEvseData.t)
    (w w' : World) :
  execute h query_fails od w = Some (Fulfilled tt, w') →
  ∀ k row, tbl_EVSE (committed w') !! k = Some row →
    IEVSE.id row = k ∧
    IEVSE.operatorId row = OPERATOR_ID_REGEX_exec k ∧
    is_Some (OPERATOR_ID_REGEX_exec k).
Proof.
  intros (ops & acc & Hops & _ & HE & _)%execute_Fulfilled k row Hrow.
  rewrite HE in Hrow.
  apply upsert_lookup_key in Hrow as [[Hrow Hk]|Hrow];
    [|by rewrite lookup_empty in Hrow].
  pose proof (subOperators_forEach_Normal _ _ _ Hops) as Hwf.
  unfold possibleSubOperators in Hrow.
  rewrite (subOperators_forEach_well_formed _ [] Hwf) in Hrow.
  cbn [fst] in Hrow.
  apply list_elem_of_fmap in Hrow as (d' & -> & Hd').
  apply list_elem_of_fmap in Hd' as (d & -> & Hd).
  rewrite list.Forall_forall in Hwf. specialize (Hwf d Hd).
  destruct (spec_resolved_station_resolved d Hwf) as [[c Hc] Hres].
  cbn in Hk. cbn [IEVSE.id IEVSE.operatorId].
  unfold candidate in Hres. rewrite Hk in *.
  rewrite Hres, Hc. by split_and!.
Qed.

Lemma execute_operator_by_identifier_witness :
  ∃ w',
    execute sample_helper no_fault sample_feed sample_world =
      Some (Fulfilled tt, w') ∧
    ∀ k row, tbl_EVSE (committed w') !! k = Some row →
      IEVSE.id row = k ∧
      IEVSE.operatorId row = OPERATOR_ID_REGEX_exec k ∧
      is_Some (OPERATOR_ID_REGEX_exec k).
Proof.
  eexists.
  assert (∀ (P Q : Prop), P → (P → Q) → P ∧ Q) as Hcut by tauto.
  apply Hcut.
  - vm_compute. reflexivity.
  - intros Hrun.
    exact (execute_operator_by_identifier sample_helper no_fault sample_feed
             sample_world _ Hrun).
Defined.

(** ** Trimmed text *)

Lemma trim_start_head s c :
  head (trim_start s) = Some c → is_white_space c = false.
Proof.
  induction s as [|x s IH]; simpl; [done|].
  destruct (is_white_space x) eqn:Hx; [done|]. by intros [= <-].
Qed.

Lemma trim_ends s :
  (∀ c, head (trim s) = Some c → is_white_space c = false) ∧
  (∀ c, list.last (trim s) = Some c → is_white_space c = false).
Proof.
  unfold trim. set (u := trim_start s). split; intros c.
  - rewrite head_reverse. intros Hlast.
    destruct (trim_start_suffix (reverse u)) as [b Hb].
    assert (list.last (reverse u) = Some c) as Hu.
    { rewrite Hb, last_app, Hlast. done. }
    rewrite last_reverse in Hu. by apply trim_start_head in Hu.
  - rewrite last_reverse. apply trim_start_head.
Qed.

(** X9: The additional info of a translation row has no white space at its
    ends. *)
Theorem extracted_additionalInfo_is_trimmed (h : DataImportHelper)
    (l : list IEvseDataRecord.t) :
  Forall (fun r =>
            match IEVSE_tr.additionalInfo r with
            | Some text =>
                (∀ c, head text = Some c → is_white_space c = false) ∧
                (∀ c, list.last text = Some c → is_white_space c = false)
            | None => True
            end) (extracted h l).
Proof.
  rewrite extracted_rows. apply list.Forall_forall.
  intros r (d & Hr & _)%list_elem_of_bind.
  apply station_rows_elem in Hr as [_ [(m & Hm & ->)|[[-> _]|[-> _]]]];
    [|done..].
  cbn. apply trim_ends.
Qed.

(** ** Malformed identifiers *)

(** X21: A run over a feed with a station identifier that does not match the
    operator-id pattern is never fulfilled, whatever the store does. *)
Theorem execute_never_fulfilled_with_malformed_id (h : DataImportHelper)
    (query_fails : nat → bool) (od : list IOperatorEvseData.t) (w : World) :
  Exists (fun d => OPERATOR_ID_REGEX_exec (IEvseDataRecord.EvseId d) = None)
    (retrieveEvseDataFromOperatorData h od) →
  ∀ w', execute h query_fails od w ≠ Some (Fulfilled tt, w').
Proof.
  intros Hbad w' (ops & _ & Hops & _)%execute_Fulfilled.
  apply (subOperators_forEach_malformed _ []) in Hbad.
  unfold possibleSubOperators in Hops. congruence.
Qed.

Lemma execute_never_fulfilled_with_malformed_id_witness :
  Exists (fun d => OPERATOR_ID_REGEX_exec (IEvseDataRecord.EvseId d) = None)
    (retrieveEvseDataFromOperatorData sample_helper malformed_feed) ∧
  ∀ w', execute sample_helper no_fault malformed_feed sample_world ≠
        Some (Fulfilled tt, w').
Proof.
  assert (Exists
    (fun d => OPERATOR_ID_REGEX_exec (IEvseDataRecord.EvseId d) = None)
    (retrieveEvseDataFromOperatorData sample_helper malformed_feed)) as Hbad.
  { apply Exists_cons_tl, Exists_cons_hd. vm_compute. reflexivity. }
  split; [exact Hbad|].
  exact (execute_never_fulfilled_with_malformed_id sample_helper no_fault
           malformed_feed sample_world Hbad).
Defined.
